(** * Sinkhorn divergences and their gradient (bary.py)

    A shallow embedding of [bary.py]: the four functions [sinkhorn],
    [sinkhorn_mk], [_uv_iteration] and [Dsinkhorn_reg], written over a small
    model of the NumPy operations they call.

    - Scalars are a type class [Scalar]: the arithmetic and the comparisons
      of the array dtype, one dtype for all arrays.  Nothing is assumed
      about them unless a theorem says so, hence the structural results hold
      for IEEE binary64 as well as for exact arithmetic.  The instance
      [float64] is Rocq's primitive binary64 (round to nearest even, as
      NumPy's [float64]).
    - [np.exp] and [np.log] come from the platform's libm and are taken as
      parameters [exp] and [log].
    - A 2-D array is a record with its shape and its rows; the shape is kept
      apart from the rows because NumPy distinguishes a (0 x k) array from a
      (0 x 0) one, and the code relies on it when every weight is dropped.
    - An operation that raises in NumPy (a shape mismatch) returns [None].
    - A matrix product computes each entry as the sum of the products
      [A[i, l] * B[l, j]] in the order of [l], from zero; [np.sum] adds in
      the order of the rows.  The order NumPy and its BLAS really use is not
      fixed by bary.py; it matters to no result below except through
      rounding.
    - The functions are given twice: as functions of array values, and as
      computations over a store of arrays, where a NumPy call reads its
      operands through references, allocates its result or returns a view,
      and [alpha[I, :] = ...] writes in place. *)

From Stdlib Require Import List Arith Lia Bool ZArith.
From Stdlib Require Import Floats.
Import ListNotations.

(** ** Scalars *)

Class Scalar (F : Type) : Type := {
  fzero : F;
  fone : F;
  fadd : F -> F -> F;
  fmul : F -> F -> F;
  fdiv : F -> F -> F;
  fneg : F -> F;
  flt : F -> F -> bool;
  fle : F -> F -> bool;
  feq : F -> F -> bool
}.

(** The facts about comparisons with zero that the zero filter relies on.
    They hold in every ordered field and in IEEE arithmetic (where a NaN
    compares false with everything, and both zeros equal zero). *)
Class ScalarOrder (F : Type) {S : Scalar F} : Prop := {
  zero_not_pos : forall x : F, feq x fzero = true -> flt fzero x = false;
  nonneg_not_pos_zero :
    forall x : F, fle fzero x = true -> flt fzero x = false -> feq x fzero = true
}.

Arguments ScalarOrder F {S}.

#[export] Instance float64 : Scalar float := {
  fzero := 0%float;
  fone := 1%float;
  fadd := PrimFloat.add;
  fmul := PrimFloat.mul;
  fdiv := PrimFloat.div;
  fneg := PrimFloat.opp;
  flt := PrimFloat.ltb;
  fle := PrimFloat.leb;
  feq := PrimFloat.eqb
}.

(** ** The option monad: a raised exception is [None] *)

Definition bind {A B : Type} (m : option A) (f : A -> option B) : option B :=
  match m with
  | Some a => f a
  | None => None
  end.

Notation "x <- m ;; k" := (bind m (fun x => k))
  (at level 61, m at next level, right associativity).
Notation "' p <- m ;; k" := (bind m (fun x => let p := x in k))
  (at level 61, p pattern, m at next level, right associativity).

(** ** Arrays *)

Section Arrays.
Context {F : Type} {S : Scalar F}.

(** A 2-D array: [shape = (nrows, ncols)] and the rows. *)
Record matrix : Type := Mat {
  nrows : nat;
  ncols : nat;
  rows : list (list F)
}.

(** What NumPy guarantees of every 2-D array. *)
Definition wf_matrix (A : matrix) : Prop :=
  length (rows A) = nrows A /\
  Forall (fun row => length row = ncols A) (rows A).

Definition has_shape (A : matrix) (n k : nat) : Prop :=
  wf_matrix A /\ nrows A = n /\ ncols A = k.

(** [c] is given as a 1-D or as a 2-D array. *)
Inductive ndarray : Type :=
| Arr1 (v : list F)
| Arr2 (A : matrix).

(** [A[i, j]] *)
Definition entry (A : matrix) (i j : nat) : F :=
  nth j (nth i (rows A) []) fzero.

(** The (n x k) array whose entry (i, j) is [f i j]. *)
Definition tabulate (n k : nat) (f : nat -> nat -> F) : matrix :=
  Mat n k (map (fun i => map (f i) (seq 0 k)) (seq 0 n)).

Definition map_matrix (f : F -> F) (A : matrix) : matrix :=
  Mat (nrows A) (ncols A) (map (map f) (rows A)).

(** Sum of a sequence, accumulated from the left starting at zero. *)
Definition vsum (l : list F) : F := fold_left fadd l fzero.

(** [Σ_{i < n} f i] *)
Definition bigsum (n : nat) (f : nat -> F) : F := vsum (map f (seq 0 n)).

(** [np.ones((n, k))] and [np.zeros((n, k))] *)
Definition np_ones (n k : nat) : matrix := tabulate n k (fun _ _ => fone).
Definition np_zeros (n k : nat) : matrix := tabulate n k (fun _ _ => fzero).

(** [np.reciprocal(x)]: elementwise [1 / x]. *)
Definition recip (x : F) : F := fdiv fone x.
Definition np_reciprocal (A : matrix) : matrix := map_matrix recip A.
Definition np_reciprocal1 (v : list F) : list F := map recip v.

(** [np.diag(v)] of a 1-D array: the square matrix with [v] on its diagonal. *)
Definition np_diag (v : list F) : matrix :=
  tabulate (length v) (length v)
    (fun i j => if i =? j then nth i v fzero else fzero).

(** [np.transpose(A)] *)
Definition np_transpose (A : matrix) : matrix :=
  tabulate (ncols A) (nrows A) (fun i j => entry A j i).

(** [A @ B]: raises unless the inner dimensions agree. *)
Definition matmul (A B : matrix) : option matrix :=
  if ncols A =? nrows B
  then Some (tabulate (nrows A) (ncols B)
               (fun i j => bigsum (ncols A)
                             (fun l => fmul (entry A i l) (entry B l j))))
  else None.

(** Broadcasting of one dimension: equal sizes, or one of them is 1. *)
Definition bdim (a b : nat) : option nat :=
  if a =? b then Some a
  else if a =? 1 then Some b
  else if b =? 1 then Some a
  else None.

(** The index read in a dimension of size [d] for the output index [i]. *)
Definition bidx (d i : nat) : nat := if d =? 1 then 0 else i.

(** [A * B]: elementwise product with broadcasting. *)
Definition np_multiply (A B : matrix) : option matrix :=
  n <- bdim (nrows A) (nrows B) ;;
  k <- bdim (ncols A) (ncols B) ;;
  Some (tabulate n k
          (fun i j => fmul (entry A (bidx (nrows A) i) (bidx (ncols A) j))
                           (entry B (bidx (nrows B) i) (bidx (ncols B) j)))).

(** [np.sum(A, axis = 0)]: one sum per column. *)
Definition np_sum_axis0 (A : matrix) : list F :=
  map (fun j => bigsum (nrows A) (fun i => entry A i j)) (seq 0 (ncols A)).

(** [r > 0] *)
Definition np_gt0 (r : list F) : list bool := map (fun x => flt fzero x) r.

(** Selection by a boolean mask: the items whose flag is set. *)
Fixpoint compress {A : Type} (I : list bool) (l : list A) : list A :=
  match I, l with
  | b :: I', a :: l' => if b then a :: compress I' l' else compress I' l'
  | _, _ => []
  end.

(** [A[I, :]]: raises unless the mask has one flag per row. *)
Definition mask_rows (I : list bool) (A : matrix) : option matrix :=
  if length I =? nrows A
  then Some (Mat (length (compress I (rows A))) (ncols A) (compress I (rows A)))
  else None.

(** [np.reshape(c, (len(c), 1))] *)
Definition reshape_column (v : list F) : matrix :=
  Mat (length v) 1 (map (fun x => [x]) v).

(** The rows that [alpha[I, :] = V] leaves in [alpha]: the next row of [V]
    where the flag is set, the old row elsewhere. *)
Fixpoint scatter_rows (I : list bool) (V old : list (list F)) : list (list F) :=
  match I, old with
  | b :: I', o :: old' =>
      if b
      then match V with
           | v :: V' => v :: scatter_rows I' V' old'
           | [] => o :: scatter_rows I' [] old'
           end
      else o :: scatter_rows I' V old'
  | _, _ => old
  end.

(** [alpha[I, :] = V]: raises unless the mask fits [alpha] and [V] has the
    shape of the selection. *)
Definition set_rows (I : list bool) (V alpha : matrix) : option matrix :=
  if (length I =? nrows alpha)
     && (nrows V =? length (filter (fun b => b) I))
     && (ncols V =? ncols alpha)
  then Some (Mat (nrows alpha) (ncols alpha) (scatter_rows I (rows V) (rows alpha)))
  else None.

(** [for i in range(T): x = body(x)] *)
Fixpoint for_range (T : nat) (body : matrix -> option matrix) (x : matrix)
  : option matrix :=
  match T with
  | O => Some x
  | Datatypes.S T' => x' <- body x ;; for_range T' body x'
  end.

(** ** The functions of bary.py *)

Variable exp : F -> F.
Variable log : F -> F.

(** One pass of the loop of [_uv_iteration]:
    [x = R @ (c * np.reciprocal(np.transpose(K) @ np.reciprocal(x)))] *)
Definition uv_step (R c K x : matrix) : option matrix :=
  t <- matmul (np_transpose K) (np_reciprocal x) ;;
  y <- np_multiply c (np_reciprocal t) ;;
  matmul R y.

Definition _uv_iteration (r : list F) (c M K : matrix) (iterations : nat)
  : option (matrix * matrix) :=
  let n := length r in
  let k := ncols c in
  let x := np_ones n k in
  R <- matmul (np_diag (np_reciprocal1 r)) K ;;
  x <- for_range iterations (uv_step R c K) x ;;
  let u := np_reciprocal x in
  t <- matmul (np_transpose K) u ;;
  v <- np_multiply c (np_reciprocal t) ;;
  Some (u, v).

(** [if len(np.shape(c)) == 1: c = np.reshape(c, (len(c), 1))] *)
Definition reshape_c (c : ndarray) : matrix :=
  match c with
  | Arr1 v => reshape_column v
  | Arr2 A => A
  end.

Definition sinkhorn_mk (r : list F) (c : ndarray) (M K : matrix)
           (iterations : nat) : option (list F) :=
  let I := np_gt0 r in
  let r := compress I r in
  M <- mask_rows I M ;;
  K <- mask_rows I K ;;
  let c := reshape_c c in
  '(u, v) <- _uv_iteration r c M K iterations ;;
  KM <- np_multiply K M ;;
  P <- matmul KM v ;;
  UP <- np_multiply u P ;;
  Some (np_sum_axis0 UP).

(** [np.exp(-l * M)] *)
Definition build_kernel (l : F) (M : matrix) : matrix :=
  map_matrix exp (map_matrix (fun x => fmul (fneg l) x) M).

Definition sinkhorn (r : list F) (c : ndarray) (M : matrix) (l : F)
           (iterations : nat) : option (list F) :=
  let K := build_kernel l M in
  sinkhorn_mk r c M K iterations.

Definition Dsinkhorn_reg (r : list F) (c : ndarray) (M : matrix) (l : F)
           (K : matrix) (iterations : nat) : option matrix :=
  let I := np_gt0 r in
  let r := compress I r in
  M <- mask_rows I M ;;
  K <- mask_rows I K ;;
  let c := reshape_c c in
  '(u, _) <- _uv_iteration r c M K iterations ;;
  let alpha := np_zeros (length I) (ncols c) in
  set_rows I (map_matrix (fun x => fdiv (log x) l) u) alpha.

End Arrays.

Arguments matrix F : clear implicits.
Arguments ndarray F : clear implicits.

(** ** The scaling iteration as the specification words it

    Matrices as index functions, a product with an explicit inner dimension,
    and the update [x <- R · (c ⊙ 1/(Kᵗ · (1/x)))] iterated [T] times. *)

Section Mathematics.
Context {F : Type} {S : Scalar F}.

Definition mx : Type := nat -> nat -> F.

Definition vec_of (v : list F) : nat -> F := fun i => nth i v fzero.

Definition mx_ones : mx := fun _ _ => fone.
Definition mx_recip (X : mx) : mx := fun i j => recip (X i j).
Definition mx_hadamard (X Y : mx) : mx := fun i j => fmul (X i j) (Y i j).
Definition mx_transpose (X : mx) : mx := fun i j => X j i.
Definition mx_diag (d : nat -> F) : mx :=
  fun i j => if i =? j then d i else fzero.
Definition mx_mul (inner : nat) (X Y : mx) : mx :=
  fun i j => bigsum inner (fun l => fmul (X i l) (Y l j)).

(** [R = diag(1/r) · K] *)
Definition scaling_R (n : nat) (r : nat -> F) (K : mx) : mx :=
  mx_mul n (mx_diag (fun i => recip (r i))) K.

(** [x ↦ R · (c ⊙ 1/(Kᵗ · (1/x)))] *)
Definition scaling_update (n m : nat) (R c K x : mx) : mx :=
  mx_mul m R (mx_hadamard c (mx_recip (mx_mul n (mx_transpose K) (mx_recip x)))).

(** [x] after [T] updates, from all ones. *)
Definition scaling_x (n m : nat) (r : nat -> F) (c K : mx) (T : nat) : mx :=
  Nat.iter T (scaling_update n m (scaling_R n r K) c K) mx_ones.

(** [u = 1/x] and [v = c ⊙ 1/(Kᵗ · u)] *)
Definition scaling_u (n m : nat) (r : nat -> F) (c K : mx) (T : nat) : mx :=
  mx_recip (scaling_x n m r c K T).
Definition scaling_v (n : nat) (c K u : mx) : mx :=
  mx_hadamard c (mx_recip (mx_mul n (mx_transpose K) u)).

(** The divergence of measure [j]: the sum over the [n] source locations
    of [u ⊙ ((K ⊙ M) · v)]. *)
Definition divergence_readout (n m : nat) (u v K M : mx) (j : nat) : F :=
  bigsum n (fun i => fmul (u i j) (mx_mul m (mx_hadamard K M) v i j)).

(** The rows kept by the filter the specification describes: those whose
    weight is not exactly zero. *)
Definition nonzero_mask (r : list F) : list bool :=
  map (fun x => negb (feq x fzero)) r.

(** The rows of [A] whose flag is set. *)
Definition keep_rows (I : list bool) (A : matrix F) : matrix F :=
  Mat (length (filter (fun b => b) I)) (ncols A) (compress I (rows A)).

(** The kernel [exp(-l * M)] of an (n x m) distance matrix, entry by entry. *)
Definition exponential_kernel (exp : F -> F) (l : F) (n m : nat) (M : mx)
  : matrix F :=
  tabulate n m (fun i j => exp (fmul (fneg l) (M i j))).

(** The position, among the kept rows, of row [i]: the number of flags
    set before it. *)
Definition rank (I : list bool) (i : nat) : nat :=
  length (filter (fun b => b) (firstn i I)).

(** The number of target measures of [c]. *)
Definition measures (c : ndarray F) : nat :=
  match c with
  | Arr1 _ => 1
  | Arr2 A => ncols A
  end.

(** The number of target locations of [c]. *)
Definition locations (c : ndarray F) : nat :=
  match c with
  | Arr1 v => length v
  | Arr2 A => nrows A
  end.

Definition wf_ndarray (c : ndarray F) : Prop :=
  match c with
  | Arr1 _ => True
  | Arr2 A => wf_matrix A
  end.



End Mathematics.

(** ** The same code over a store of arrays

    To speak of mutation, arrays live in a store and the code handles
    references to them.  A handle names a cell of the store and the views
    taken of it: [np.reshape] and [np.transpose] return views, which share
    the cell of their operand, and every other NumPy call of bary.py
    allocates its result.  The one write in place is [alpha[I, :] = ...].
    A computation takes the store and returns the store it leaves, with a
    value or [None] when an exception was raised. *)

Section Store.
Context {F : Type} {S : Scalar F}.
Variable exp : F -> F.
Variable log : F -> F.

Inductive view : Type :=
| AsColumn
| Transposed.

Record handle : Type := Handle {
  addr : nat;
  via : list view
}.

Definition store : Type := list (ndarray F).

Definition St (A : Type) : Type := store -> option A * store.

Definition ret {A : Type} (a : A) : St A := fun s => (Some a, s).

Definition raise {A : Type} : St A := fun s => (None, s).

Definition bindS {A B : Type} (m : St A) (f : A -> St B) : St B :=
  fun s =>
    match m s with
    | (Some a, s') => f a s'
    | (None, s') => (None, s')
    end.

Notation "x <~ m ;; k" := (bindS m (fun x => k))
  (at level 61, m at next level, right associativity).

Definition lift {A : Type} (o : option A) : St A :=
  match o with
  | Some a => ret a
  | None => raise
  end.

(** The array seen through a view. *)
Definition apply_view (w : view) (a : ndarray F) : option (ndarray F) :=
  match w, a with
  | AsColumn, Arr1 v => Some (Arr2 (reshape_column v))
  | AsColumn, Arr2 _ => None
  | Transposed, Arr1 v => Some (Arr1 v)
  | Transposed, Arr2 A => Some (Arr2 (np_transpose A))
  end.

Definition apply_views (ws : list view) (a : ndarray F) : option (ndarray F) :=
  fold_left (fun acc w => bind acc (apply_view w)) ws (Some a).

(** The array a handle denotes in a store. *)
Definition read (s : store) (h : handle) : option (ndarray F) :=
  bind (nth_error s (addr h)) (apply_views (via h)).

Definition load (h : handle) : St (ndarray F) := fun s => (read s h, s).

Definition load1 (h : handle) : St (list F) :=
  a <~ load h ;;
  match a with
  | Arr1 v => ret v
  | Arr2 _ => raise
  end.

Definition load2 (h : handle) : St (matrix F) :=
  a <~ load h ;;
  match a with
  | Arr1 _ => raise
  | Arr2 A => ret A
  end.

(** A new array: a fresh cell at the end of the store. *)
Definition alloc (a : ndarray F) : St handle :=
  fun s => (Some (Handle (length s) []), s ++ [a]).

(** Replacing the content of a cell. *)
Fixpoint update (n : nat) (a : ndarray F) (s : store) : store :=
  match n, s with
  | O, _ :: s' => a :: s'
  | Datatypes.S n', b :: s' => b :: update n' a s'
  | _, [] => []
  end.

(** The NumPy calls of bary.py. *)

Definition matmul_st (a b : handle) : St handle :=
  A <~ load2 a ;; B <~ load2 b ;; C <~ lift (matmul A B) ;; alloc (Arr2 C).

Definition multiply_st (a b : handle) : St handle :=
  A <~ load2 a ;; B <~ load2 b ;; C <~ lift (np_multiply A B) ;; alloc (Arr2 C).

Definition reciprocal_st (a : handle) : St handle :=
  A <~ load2 a ;; alloc (Arr2 (np_reciprocal A)).

Definition reciprocal1_st (r : handle) : St handle :=
  v <~ load1 r ;; alloc (Arr1 (np_reciprocal1 v)).

Definition diag_st (r : handle) : St handle :=
  v <~ load1 r ;; alloc (Arr2 (np_diag v)).

Definition transpose_st (a : handle) : St handle :=
  ret (Handle (addr a) (via a ++ [Transposed])).

Definition reshape_column_st (c : handle) : St handle :=
  ret (Handle (addr c) (via c ++ [AsColumn])).

Definition ones_st (n k : nat) : St handle := alloc (Arr2 (np_ones n k)).

Definition zeros_st (n k : nat) : St handle := alloc (Arr2 (np_zeros n k)).

(** [r > 0]; the mask is only ever read, and is kept as a value. *)
Definition gt0_st (r : handle) : St (list bool) :=
  v <~ load1 r ;; ret (np_gt0 v).

Definition getitem1_st (r : handle) (I : list bool) : St handle :=
  v <~ load1 r ;; alloc (Arr1 (compress I v)).

Definition getitem_rows_st (M : handle) (I : list bool) : St handle :=
  A <~ load2 M ;; A' <~ lift (mask_rows I A) ;; alloc (Arr2 A').

(** [alpha[I, :] = V], in place. *)
Definition setitem_rows_st (alpha : handle) (I : list bool) (V : handle)
  : St unit :=
  fun s =>
    match via alpha, nth_error s (addr alpha), read s V with
    | [], Some (Arr2 A), Some (Arr2 B) =>
        match set_rows I B A with
        | Some A' => (Some tt, update (addr alpha) (Arr2 A') s)
        | None => (None, s)
        end
    | _, _, _ => (None, s)
    end.

Definition sum_axis0_st (a : handle) : St handle :=
  A <~ load2 a ;; alloc (Arr1 (np_sum_axis0 A)).

Definition map_st (f : F -> F) (a : handle) : St handle :=
  A <~ load2 a ;; alloc (Arr2 (map_matrix f A)).

Definition len_st (r : handle) : St nat :=
  v <~ load1 r ;; ret (length v).

(** [np.shape(c)[1]] *)
Definition shape1_st (c : handle) : St nat :=
  A <~ load2 c ;; ret (ncols A).

(** [if len(np.shape(c)) == 1: c = np.reshape(c, (len(c), 1))] *)
Definition reshape_c_st (c : handle) : St handle :=
  a <~ load c ;;
  match a with
  | Arr1 _ => reshape_column_st c
  | Arr2 _ => ret c
  end.

Fixpoint for_range_st (T : nat) (body : handle -> St handle) (x : handle)
  : St handle :=
  match T with
  | O => ret x
  | Datatypes.S T' => x' <~ body x ;; for_range_st T' body x'
  end.

(** The functions of bary.py, statement by statement. *)

Definition uv_step_st (R c K x : handle) : St handle :=
  Kt <~ transpose_st K ;;
  xr <~ reciprocal_st x ;;
  t <~ matmul_st Kt xr ;;
  tr <~ reciprocal_st t ;;
  y <~ multiply_st c tr ;;
  matmul_st R y.

Definition _uv_iteration_st (r c M K : handle) (iterations : nat)
  : St (handle * handle) :=
  n <~ len_st r ;;
  k <~ shape1_st c ;;
  x <~ ones_st n k ;;
  rr <~ reciprocal1_st r ;;
  D <~ diag_st rr ;;
  R <~ matmul_st D K ;;
  x <~ for_range_st iterations (uv_step_st R c K) x ;;
  u <~ reciprocal_st x ;;
  Kt <~ transpose_st K ;;
  t <~ matmul_st Kt u ;;
  tr <~ reciprocal_st t ;;
  v <~ multiply_st c tr ;;
  ret (u, v).

Definition sinkhorn_mk_st (r c M K : handle) (iterations : nat) : St handle :=
  I <~ gt0_st r ;;
  r <~ getitem1_st r I ;;
  M <~ getitem_rows_st M I ;;
  K <~ getitem_rows_st K I ;;
  c <~ reshape_c_st c ;;
  uv <~ _uv_iteration_st r c M K iterations ;;
  KM <~ multiply_st K M ;;
  P <~ matmul_st KM (snd uv) ;;
  UP <~ multiply_st (fst uv) P ;;
  sum_axis0_st UP.

Definition sinkhorn_st (r c M : handle) (l : F) (iterations : nat) : St handle :=
  lM <~ map_st (fun x => fmul (fneg l) x) M ;;
  K <~ map_st exp lM ;;
  sinkhorn_mk_st r c M K iterations.

Definition Dsinkhorn_reg_st (r c M : handle) (l : F) (K : handle)
           (iterations : nat) : St handle :=
  I <~ gt0_st r ;;
  r <~ getitem1_st r I ;;
  M <~ getitem_rows_st M I ;;
  K <~ getitem_rows_st K I ;;
  c <~ reshape_c_st c ;;
  uv <~ _uv_iteration_st r c M K iterations ;;
  k <~ shape1_st c ;;
  alpha <~ zeros_st (length I) k ;;
  lu <~ map_st log (fst uv) ;;
  q <~ map_st (fun x => fdiv x l) lu ;;
  _ <~ setitem_rows_st alpha I q ;;
  ret alpha.

(** What a call leaves of the store it was given: [s'] extends [s] when
    every cell of [s] is in [s'], unchanged. *)
Definition extends (s s' : store) : Prop := exists t, s' = s ++ t.

(** The outcome of a computation that returns a handle: the array the
    handle denotes in the final store, or [None] for an exception. *)
Definition outcome (m : St handle) (s : store) : option (ndarray F) :=
  bind (fst (m s)) (read (snd (m s))).

(** [wp m s post]: [post] holds of the result of [m] from [s]. *)
Definition wp {A : Type} (m : St A) (s : store)
           (post : option A -> store -> Prop) : Prop :=
  post (fst (m s)) (snd (m s)).

(** What [post] must grant for a call that computes the value [o] from the
    arrays it read: in any store extending [s], a handle on the result, or
    the exception. *)
Definition result_post {A : Type} (s : store) (o : option A)
           (g : A -> ndarray F)
           (post : option handle -> store -> Prop) : Prop :=
  forall s', extends s s' ->
             match o with
             | Some a => forall h, read s' h = Some (g a) -> post (Some h) s'
             | None => post None s'
             end.

(** A call is pure when it leaves every cell of the store it was given as it
    found it (so [inputs] denote the arrays they denoted) and its outcome is
    [value]. *)
Definition pure_call (m : St handle) (s : store) (inputs : list handle)
           (value : option (ndarray F)) : Prop :=
  firstn (length s) (snd (m s)) = s
  /\ Forall (fun h => read (snd (m s)) h = read s h) inputs
  /\ outcome m s = value.

End Store.

Notation "x <~ m ;; k" := (bindS m (fun x => k))
  (at level 61, m at next level, right associativity).

(** ** Signs

    [all_entries P A]: every stored entry of [A] satisfies [P]. *)

Section Entries.
Context {F : Type} {S : Scalar F}.

Definition all_entries (P : F -> Prop) (A : matrix F) : Prop :=
  Forall (Forall P) (rows A).

Definition all_entries_nd (P : F -> Prop) (c : ndarray F) : Prop :=
  match c with
  | Arr1 v => Forall P v
  | Arr2 A => all_entries P A
  end.

(** [x >= 0] as NumPy decides it. *)
Definition nonneg (x : F) : Prop := fle fzero x = true.

End Entries.

(** The sign of a binary64 value, read on its IEEE decoding: [sf_has_sign]
    holds of a NaN whatever the sign asked for. *)
Definition sf_has_sign (s : bool) (x : spec_float) : bool :=
  match x with
  | S754_nan => true
  | S754_zero b | S754_infinity b | S754_finite b _ _ => Bool.eqb b s
  end.

(** NaN, [+0], a positive number or [+inf]. *)
Definition sf_sign_clear (x : spec_float) : bool := sf_has_sign false x.

(** As above, or [-0]. *)
Definition sf_not_negative (x : spec_float) : bool :=
  match x with
  | S754_zero _ => true
  | _ => sf_has_sign false x
  end.

Definition sign_clear (x : float) : Prop := sf_sign_clear (Prim2SF x) = true.
Definition not_negative (x : float) : Prop := sf_not_negative (Prim2SF x) = true.

(** [x >= 0 or isnan(x)] *)
Definition nonneg_or_nan (x : float) : Prop :=
  PrimFloat.leb 0 x = true \/ PrimFloat.is_nan x = true.

(** ** Sample inputs in binary64

    Three source locations, one of them of weight zero, two target locations
    and a batch of two measures.  [exp_stand_in] and [log_stand_in] take the
    place of libm's functions where a run needs some function there; no
    result below depends on which function it is. *)

Module Sample.

Definition r : list float := [0.5; 0; 0.5]%float.

Definition c : matrix float := Mat 2 2 [[0.5; 1]; [0.5; 0]]%float.

Definition c_flat : list float := [0.5; 0.5]%float.

Definition M : matrix float := Mat 3 2 [[0; 1]; [0.5; 0.5]; [1; 0]]%float.

Definition M' : matrix float := Mat 3 2 [[0; 2]; [3; 4]; [2; 0]]%float.

Definition K : matrix float :=
  Mat 3 2 [[1; 0.25]; [0.5; 0.5]; [0.25; 1]]%float.

Definition exp_stand_in (x : float) : float := (1 / (1 + abs x))%float.

Definition log_stand_in (x : float) : float := (x - 1)%float.

Definition zeros3 : list float := [0; 0; 0]%float.

(** One location on each side, at distance 0, so that [exp(-l * M)] is the
    kernel [[1]] for every [l]. *)
Definition M1 : matrix float := Mat 1 1 [[0]]%float.
Definition K1 : matrix float := Mat 1 1 [[1]]%float.

(** The smallest positive binary64 number, 2^-1074. *)
Definition tiny : float := 0x1p-1074%float.

(** Two stores holding the same arrays at different places; in the first,
    the targets are kept flat and seen as a column. *)
Definition heap : store :=
  [Arr1 r; Arr1 c_flat; Arr2 M; Arr2 K].

Definition heap' : store :=
  [Arr2 K; Arr2 M; Arr2 (reshape_column c_flat); Arr1 r].

End Sample.

(** ** More array operations, to state what the code does on edge inputs *)

Section MoreArrays.
Context {F : Type} {S : Scalar F}.



(** [np.repeat(A, m, axis = 0)] of a one-row array: its row, [m] times. *)
Definition repeat_rows (m : nat) (A : matrix F) : matrix F :=
  Mat m (ncols A) (repeat (nth 0 (rows A) []) m).

(** A handle on a cell that store [s0] does not have, and not a view. *)
Definition fresh_for (s0 : store (F := F)) (h : handle) : Prop :=
  length s0 <= addr h /\ via h = [].

(** [frame s0 P m]: run from any store that extends [s0], the computation
    [m] leaves a store that extends [s0], and what it returns satisfies [P]. *)
Definition frame {A : Type} (s0 : store (F := F)) (P : A -> Prop) (m : St A)
  : Prop :=
  forall s, extends s0 s ->
            extends s0 (snd (m s))
            /\ forall a, fst (m s) = Some a -> P a.

End MoreArrays.

(** More sample inputs: targets given as a single row, and two target
    locations against a kernel with one column. *)
Module Sample2.

Definition c_row : matrix float := Mat 1 2 [[0.5; 1]]%float.


Definition K_one_column : matrix float := Mat 3 1 [[1]; [0.5]; [0.25]]%float.



(** Weights with a negative entry. *)
Definition r_signed : list float := [0.5; -1; 0.25]%float.

(** Two source locations of positive weight. *)
Definition r2 : list float := [0.5; 0.5]%float.

Definition M2 : matrix float := Mat 2 2 [[0; 1]; [1; 0]]%float.

Definition K2 : matrix float := Mat 2 2 [[1; 0.25]; [0.25; 1]]%float.


End Sample2.

(** * Properties *)

(** ** Lists and sums *)

Section ListFacts.
Context {F : Type} {S : Scalar F}.

Lemma bind_inv {A B : Type} (m : option A) (f : A -> option B) (b : B) :
  bind m f = Some b -> exists a, m = Some a /\ f a = Some b.
Proof. destruct m as [a|]; simpl; [eauto | discriminate]. Qed.


Lemma nth_map_lt {A B : Type} (g : A -> B) (l : list A) (i : nat)
      (da : A) (db : B) :
  i < length l -> nth i (map g l) db = g (nth i l da).
Proof.
  intros Hi. rewrite (nth_indep _ db (g da)) by (rewrite length_map; lia).
  apply map_nth.
Qed.

Lemma map_const_seq {A : Type} (a : A) (s k : nat) :
  map (fun _ => a) (seq s k) = repeat a k.
Proof.
  revert s. induction k as [|k IH]; intros s; simpl; [reflexivity|].
  now rewrite IH.
Qed.

Lemma bigsum_ext (n : nat) (f g : nat -> F) :
  (forall i, i < n -> f i = g i) -> bigsum n f = bigsum n g.
Proof.
  intros H. unfold bigsum. f_equal.
  apply map_ext_in. intros i Hi. apply in_seq in Hi. apply H. lia.
Qed.

Lemma compress_Forall {A : Type} (P : A -> Prop) (I : list bool) (l : list A) :
  Forall P l -> Forall P (compress I l).
Proof.
  revert l. induction I as [|b I IH]; intros [|a l] H; simpl;
    try apply Forall_nil.
  inversion H; subst. destruct b; auto.
Qed.

Lemma compress_all_false {A : Type} (I : list bool) (l : list A) :
  Forall (fun b => b = false) I -> compress I l = [].
Proof.
  revert l. induction I as [|b I IH]; intros [|a l] H; simpl; auto.
  inversion H; subst. auto.
Qed.

Lemma length_compress_filter {A : Type} (I : list bool) (l : list A) :
  length I = length l ->
  length (compress I l) = length (filter (fun b => b) I).
Proof.
  revert l. induction I as [|b I IH]; intros [|a l] H; simpl in *;
    try discriminate; auto.
  destruct b; simpl; auto.
Qed.

End ListFacts.

(** ** Arrays in tabulated form *)

Section ArrayFacts.
Context {F : Type} {S : Scalar F}.

Lemma tabulate_ext (n k : nat) (f g : nat -> nat -> F) :
  (forall i j, i < n -> j < k -> f i j = g i j) ->
  tabulate n k f = tabulate n k g.
Proof.
  intros H. unfold tabulate. f_equal.
  apply map_ext_in. intros i Hi. apply in_seq in Hi.
  apply map_ext_in. intros j Hj. apply in_seq in Hj.
  apply H; lia.
Qed.

Lemma entry_tabulate (n k : nat) (f : nat -> nat -> F) (i j : nat) :
  i < n -> j < k -> entry (tabulate n k f) i j = f i j.
Proof.
  intros Hi Hj. unfold entry, tabulate. simpl.
  rewrite (nth_indep _ [] (map (f 0) (seq 0 k))) by (rewrite length_map, length_seq; lia).
  rewrite (map_nth (fun i => map (f i) (seq 0 k)) (seq 0 n) 0 i).
  rewrite seq_nth by lia. simpl.
  rewrite (nth_indep _ fzero (f i 0)) by (rewrite length_map, length_seq; lia).
  rewrite (map_nth (f i) (seq 0 k) 0 j).
  rewrite seq_nth by lia. reflexivity.
Qed.

Lemma wf_tabulate (n k : nat) (f : nat -> nat -> F) :
  has_shape (tabulate n k f) n k.
Proof.
  unfold has_shape, wf_matrix, tabulate. simpl. repeat split.
  - now rewrite length_map, length_seq.
  - apply Forall_forall. intros row Hrow. apply in_map_iff in Hrow.
    destruct Hrow as (i & <- & _). now rewrite length_map, length_seq.
Qed.

(** Every well-formed array is the table of its entries. *)
Lemma tabulate_entry (A : matrix F) (n k : nat) :
  has_shape A n k -> A = tabulate n k (entry A).
Proof.
  destruct A as [n' k' rs]. unfold has_shape, wf_matrix, tabulate, entry. simpl.
  intros ((Hlen & Hrows) & -> & ->). f_equal.
  apply (nth_ext _ _ [] []).
  - now rewrite length_map, length_seq.
  - intros i Hi.
    rewrite (nth_indep (map _ _) [] ((fun i0 => map (fun j => nth j (nth i0 rs []) fzero) (seq 0 k)) 0))
      by (rewrite length_map, length_seq; lia).
    rewrite (map_nth (fun i0 => map (fun j => nth j (nth i0 rs []) fzero) (seq 0 k)) (seq 0 n) 0 i).
    rewrite seq_nth by lia. simpl.
    assert (Hk : length (nth i rs []) = k).
    { rewrite Forall_forall in Hrows. apply Hrows. apply nth_In. lia. }
    apply (nth_ext _ _ fzero fzero).
    + now rewrite length_map, length_seq.
    + intros j Hj.
      rewrite (nth_indep (map _ _) fzero ((fun j0 => nth j0 (nth i rs []) fzero) 0))
        by (rewrite length_map, length_seq; lia).
      rewrite (map_nth (fun j0 => nth j0 (nth i rs []) fzero) (seq 0 k) 0 j).
      rewrite seq_nth by lia. reflexivity.
Qed.

Lemma map_matrix_tabulate (g : F -> F) (n k : nat) (f : nat -> nat -> F) :
  map_matrix g (tabulate n k f) = tabulate n k (fun i j => g (f i j)).
Proof.
  unfold map_matrix, tabulate. simpl. f_equal.
  rewrite map_map. apply map_ext. intros i. now rewrite map_map.
Qed.

Lemma np_reciprocal_tabulate (n k : nat) (f : mx) :
  np_reciprocal (tabulate n k f) = tabulate n k (mx_recip f).
Proof. apply map_matrix_tabulate. Qed.

Lemma np_transpose_tabulate (n k : nat) (f : mx) :
  np_transpose (tabulate n k f) = tabulate k n (mx_transpose f).
Proof.
  unfold np_transpose. simpl. apply tabulate_ext.
  intros i j Hi Hj. unfold mx_transpose. now apply entry_tabulate.
Qed.

Lemma matmul_tabulate (n m k : nat) (f g : mx) :
  matmul (tabulate n m f) (tabulate m k g) = Some (tabulate n k (mx_mul m f g)).
Proof.
  unfold matmul. simpl. rewrite Nat.eqb_refl. f_equal.
  apply tabulate_ext. intros i j Hi Hj. unfold mx_mul.
  apply bigsum_ext. intros l Hl.
  now rewrite !entry_tabulate.
Qed.

Lemma bdim_same (a : nat) : bdim a a = Some a.
Proof. unfold bdim. now rewrite Nat.eqb_refl. Qed.

Lemma bidx_lt (d i : nat) : i < d -> bidx d i = i.
Proof.
  unfold bidx. destruct (Nat.eqb_spec d 1); intros; lia.
Qed.

Lemma np_multiply_tabulate (n k : nat) (f g : mx) :
  np_multiply (tabulate n k f) (tabulate n k g)
  = Some (tabulate n k (mx_hadamard f g)).
Proof.
  unfold np_multiply. simpl. rewrite !bdim_same. simpl. f_equal.
  apply tabulate_ext. intros i j Hi Hj. unfold mx_hadamard.
  rewrite !bidx_lt by assumption.
  now rewrite !entry_tabulate.
Qed.

Lemma np_diag_tabulate (v : list F) :
  np_diag (np_reciprocal1 v)
  = tabulate (length v) (length v) (mx_diag (fun i => recip (vec_of v i))).
Proof.
  unfold np_diag, np_reciprocal1. rewrite length_map.
  apply tabulate_ext. intros i j Hi Hj. unfold mx_diag, vec_of.
  destruct (i =? j); [|reflexivity].
  rewrite (nth_indep _ fzero (recip fzero)) by (rewrite length_map; lia).
  apply map_nth.
Qed.

Lemma np_sum_axis0_tabulate (n k : nat) (f : mx) :
  np_sum_axis0 (tabulate n k f)
  = map (fun j => bigsum n (fun i => f i j)) (seq 0 k).
Proof.
  unfold np_sum_axis0. simpl. apply map_ext_in. intros j Hj.
  apply in_seq in Hj. apply bigsum_ext. intros i Hi.
  apply entry_tabulate; lia.
Qed.

End ArrayFacts.

(** ** The scaling iteration *)

Section ScalingIteration.
Context {F : Type} {S : Scalar F}.

Lemma uv_step_tabulate (n m k : nat) (R c K x : mx) :
  uv_step (tabulate n m R) (tabulate m k c) (tabulate n m K) (tabulate n k x)
  = Some (tabulate n k (scaling_update n m R c K x)).
Proof.
  unfold uv_step.
  rewrite np_transpose_tabulate, np_reciprocal_tabulate, matmul_tabulate. simpl.
  rewrite np_reciprocal_tabulate, np_multiply_tabulate. simpl.
  now rewrite matmul_tabulate.
Qed.

Lemma for_range_tabulate (n m k : nat) (R c K : mx) (T : nat) :
  forall x : mx,
    for_range T (uv_step (tabulate n m R) (tabulate m k c) (tabulate n m K))
              (tabulate n k x)
    = Some (tabulate n k (Nat.iter T (scaling_update n m R c K) x)).
Proof.
  induction T as [|T IH]; intros x.
  - reflexivity.
  - cbn [for_range]. rewrite uv_step_tabulate. cbn [bind].
    rewrite IH. now rewrite Nat.iter_succ_r.
Qed.

(** The iteration on tabulated inputs: it never raises, and its results
    are the tables of the specification's [u] and [v]. *)
Lemma uv_iteration_tabulate (r : list F) (m k : nat) (c K : mx)
      (M : matrix F) (T : nat) :
  let n := length r in
  let u := scaling_u n m (vec_of r) c K T in
  _uv_iteration r (tabulate m k c) M (tabulate n m K) T
  = Some (tabulate n k u, tabulate m k (scaling_v n c K u)).
Proof.
  intros n u. unfold _uv_iteration. cbn [ncols tabulate].
  rewrite np_diag_tabulate. fold n. rewrite matmul_tabulate. cbn [bind].
  unfold np_ones. rewrite for_range_tabulate. cbn [bind].
  rewrite np_reciprocal_tabulate, np_transpose_tabulate, matmul_tabulate.
  cbn [bind]. rewrite np_reciprocal_tabulate, np_multiply_tabulate.
  reflexivity.
Qed.

Lemma uv_iteration_shaped (r : list F) (c M K : matrix F) (n m k T : nat) :
  length r = n -> has_shape c m k -> has_shape K n m ->
  let u := scaling_u n m (vec_of r) (entry c) (entry K) T in
  _uv_iteration r c M K T
  = Some (tabulate n k u, tabulate m k (scaling_v n (entry c) (entry K) u)).
Proof.
  intros Hr Hc HK u.
  rewrite (tabulate_entry _ _ _ Hc) at 1. rewrite (tabulate_entry _ _ _ HK) at 1.
  subst n. apply uv_iteration_tabulate.
Qed.

(** The iteration never reads its [M] argument. *)
Lemma uv_iteration_M_irrelevant (r : list F) (c M M' K : matrix F) (T : nat) :
  _uv_iteration r c M K T = _uv_iteration r c M' K T.
Proof. reflexivity. Qed.

End ScalingIteration.

(** C1. On a reference vector of length n, an (m x k) target matrix and an
    (n x m) kernel, [_uv_iteration] with iteration count T returns, without
    raising, the pair (u, v) of the specification: x starts as the all-ones
    (n x k) matrix, R = diag(1/r) · K is formed once, x is replaced T times by
    R · (c ⊙ 1/(Kᵗ · (1/x))), and then u = 1/x (n x k) and
    v = c ⊙ 1/(Kᵗ · u) (m x k).  No sign condition on r, c or K is needed
    for this, and the distance matrix M is arbitrary. *)
Theorem uv_iteration_refines_scaling
        {F : Type} {S : Scalar F}
        (r : list F) (c M K : matrix F) (n m k T : nat) :
  length r = n -> has_shape c m k -> has_shape K n m ->
  let x := Nat.iter T
             (scaling_update n m (scaling_R n (vec_of r) (entry K))
                             (entry c) (entry K))
             mx_ones in
  let u := mx_recip x in
  let v := mx_hadamard (entry c)
             (mx_recip (mx_mul n (mx_transpose (entry K)) u)) in
  _uv_iteration r c M K T = Some (tabulate n k u, tabulate m k v)
  /\ has_shape (tabulate n k u) n k
  /\ has_shape (tabulate m k v) m k.
Proof.
  intros Hr Hc HK x u v. split; [|split]; try apply wf_tabulate.
  now apply uv_iteration_shaped.
Qed.

(** ** IEEE binary64 *)

Section Float64.

Lemma Prim2SF_zero : Prim2SF 0%float = S754_zero false.
Proof. reflexivity. Qed.

Lemma float64_zero_not_pos (x : float) :
  PrimFloat.eqb x 0 = true -> PrimFloat.ltb 0 x = false.
Proof.
  rewrite eqb_spec, ltb_spec, Prim2SF_zero.
  destruct (Prim2SF x) as [s|s| |s mx ex]; try destruct s; cbn;
    congruence.
Qed.

Lemma float64_nonneg_not_pos_zero (x : float) :
  PrimFloat.leb 0 x = true -> PrimFloat.ltb 0 x = false ->
  PrimFloat.eqb x 0 = true.
Proof.
  rewrite eqb_spec, ltb_spec, leb_spec, Prim2SF_zero.
  destruct (Prim2SF x) as [s|s| |s mx ex]; try destruct s; cbn;
    congruence.
Qed.

End Float64.

#[export] Instance float64_order : ScalarOrder float.
Proof.
  split.
  - exact float64_zero_not_pos.
  - exact float64_nonneg_not_pos_zero.
Qed.

(** ** The zero filter and the divergence readout *)

Section Divergence.
Context {F : Type} {S : Scalar F}.

Lemma length_np_gt0 (r : list F) : length (np_gt0 r) = length r.
Proof. apply length_map. Qed.

Lemma np_gt0_nonzero_mask {O : ScalarOrder F} (r : list F) :
  Forall (fun x => fle fzero x = true) r -> np_gt0 r = nonzero_mask r.
Proof.
  intros H. unfold np_gt0, nonzero_mask. apply map_ext_in.
  intros x Hx. rewrite Forall_forall in H. specialize (H x Hx).
  destruct (flt fzero x) eqn:Hlt, (feq x fzero) eqn:Heq; try reflexivity.
  - apply zero_not_pos in Heq. congruence.
  - apply (nonneg_not_pos_zero x H) in Hlt. congruence.
Qed.

Lemma np_gt0_all_zero {O : ScalarOrder F} (r : list F) :
  Forall (fun x => feq x fzero = true) r ->
  Forall (fun b => b = false) (np_gt0 r).
Proof.
  intros H. unfold np_gt0. apply Forall_map.
  eapply Forall_impl; [|exact H]. intros x Hx. now apply zero_not_pos.
Qed.

Lemma keep_rows_shape (I : list bool) (A : matrix F) (n m : nat) :
  length I = n -> has_shape A n m ->
  has_shape (keep_rows I A) (length (filter (fun b => b) I)) m.
Proof.
  intros HI ((Hlen & Hrows) & Hn & Hm). unfold has_shape, wf_matrix, keep_rows.
  simpl. repeat split; try assumption.
  - apply length_compress_filter. congruence.
  - now apply compress_Forall.
Qed.

Lemma mask_rows_shaped (I : list bool) (A : matrix F) (n m : nat) :
  length I = n -> has_shape A n m -> mask_rows I A = Some (keep_rows I A).
Proof.
  intros HI ((Hlen & Hrows) & Hn & Hm). unfold mask_rows, keep_rows.
  rewrite HI, Hn, Nat.eqb_refl. do 2 f_equal.
  apply length_compress_filter. congruence.
Qed.

Lemma length_compress_np_gt0 (r : list F) :
  length (compress (np_gt0 r) r) = length (filter (fun b => b) (np_gt0 r)).
Proof. apply length_compress_filter, length_np_gt0. Qed.

Lemma reshape_c_shape (c : ndarray F) :
  wf_ndarray c -> has_shape (reshape_c c) (locations c) (measures c).
Proof.
  destruct c as [v|A]; simpl.
  - intros _. unfold has_shape, wf_matrix, reshape_column. simpl.
    repeat split.
    + apply length_map.
    + apply Forall_forall. intros row Hrow. apply in_map_iff in Hrow.
      now destruct Hrow as (x & <- & _).
  - intros H. unfold has_shape. auto.
Qed.


(** The divergence on inputs of conforming shapes: it never raises, and
    it is the readout of the iteration run on the rows the mask keeps. *)
Lemma sinkhorn_mk_shaped (r : list F) (c : ndarray F) (M K : matrix F)
      (n m T : nat) :
  length r = n -> has_shape M n m -> has_shape K n m ->
  wf_ndarray c -> locations c = m ->
  let I := np_gt0 r in
  let r' := compress I r in
  let n' := length r' in
  let k := measures c in
  let u := scaling_u n' m (vec_of r') (entry (reshape_c c)) (entry (keep_rows I K)) T in
  let v := scaling_v n' (entry (reshape_c c)) (entry (keep_rows I K)) u in
  _uv_iteration r' (reshape_c c) (keep_rows I M) (keep_rows I K) T
  = Some (tabulate n' k u, tabulate m k v)
  /\ sinkhorn_mk r c M K T
     = Some (map (divergence_readout n' m u v
                    (entry (keep_rows I K)) (entry (keep_rows I M)))
                 (seq 0 k)).
Proof.
  intros Hr HM HK Hc Hm I r' n' k u v.
  assert (HI : length I = n) by (unfold I; now rewrite length_np_gt0).
  assert (Hn' : n' = length (filter (fun b => b) I))
    by apply length_compress_np_gt0.
  pose proof (keep_rows_shape I M n m HI HM) as HM'.
  pose proof (keep_rows_shape I K n m HI HK) as HK'.
  rewrite <- Hn' in HM', HK'.
  pose proof (reshape_c_shape c Hc) as Hc'. rewrite Hm in Hc'. fold k in Hc'.
  assert (Huv : _uv_iteration r' (reshape_c c) (keep_rows I M) (keep_rows I K) T
                = Some (tabulate n' k u, tabulate m k v))
    by now apply uv_iteration_shaped.
  split; [exact Huv|].
  unfold sinkhorn_mk. fold I. fold r'.
  rewrite (mask_rows_shaped I M n m HI HM), (mask_rows_shaped I K n m HI HK). cbn [bind].
  rewrite Huv. cbn [bind].
  rewrite (tabulate_entry _ _ _ HK') at 1. rewrite (tabulate_entry _ _ _ HM') at 1.
  rewrite np_multiply_tabulate. cbn [bind].
  rewrite matmul_tabulate. cbn [bind].
  rewrite np_multiply_tabulate. cbn [bind].
  now rewrite np_sum_axis0_tabulate.
Qed.

End Divergence.

(** Shapes of the results, whatever the shapes of the inputs. *)

Ltac bind_inversion H :=
  let a := fresh "a" in
  let Ha := fresh "H" a in
  apply bind_inv in H; destruct H as (a & Ha & H).

Section ResultShapes.
Context {F : Type} {S : Scalar F}.

Lemma matmul_shape (A B C : matrix F) :
  matmul A B = Some C -> nrows C = nrows A /\ ncols C = ncols B.
Proof.
  unfold matmul. destruct (ncols A =? nrows B); [|discriminate].
  intros [= <-]. now split.
Qed.

Lemma bdim_eq (a b d : nat) : bdim a b = Some d -> a = b -> d = b.
Proof.
  unfold bdim. intros H ->. rewrite Nat.eqb_refl in H. congruence.
Qed.

Lemma np_multiply_ncols (A B C : matrix F) :
  np_multiply A B = Some C -> ncols A = ncols B -> ncols C = ncols B.
Proof.
  unfold np_multiply. intros H Hk.
  bind_inversion H. bind_inversion H. injection H as <-. simpl.
  eapply bdim_eq; eauto.
Qed.

Lemma ncols_map_matrix (f : F -> F) (A : matrix F) :
  ncols (map_matrix f A) = ncols A.
Proof. reflexivity. Qed.

Lemma uv_step_ncols (R c K x x' : matrix F) :
  uv_step R c K x = Some x' -> ncols x = ncols c -> ncols x' = ncols c.
Proof.
  unfold uv_step. intros H Hx.
  bind_inversion H. bind_inversion H.
  apply matmul_shape in Ha, H. destruct Ha as (_ & Ha), H as (_ & H).
  apply np_multiply_ncols in Ha0; cbn [ncols np_reciprocal map_matrix] in *;
    congruence.
Qed.

Lemma for_range_ncols (R c K : matrix F) (T : nat) :
  forall x x', for_range T (uv_step R c K) x = Some x' ->
               ncols x = ncols c -> ncols x' = ncols c.
Proof.
  induction T as [|T IH]; intros x x' H Hx; cbn [for_range] in H.
  - congruence.
  - bind_inversion H. eapply IH; eauto using uv_step_ncols.
Qed.

Lemma uv_iteration_ncols (r : list F) (c M K u v : matrix F) (T : nat) :
  _uv_iteration r c M K T = Some (u, v) ->
  ncols u = ncols c /\ ncols v = ncols c.
Proof.
  unfold _uv_iteration. intros H.
  bind_inversion H. bind_inversion H. bind_inversion H. bind_inversion H.
  injection H as <- <-.
  apply for_range_ncols in Ha0; [|reflexivity].
  assert (Hu : ncols (np_reciprocal a0) = ncols c) by exact Ha0.
  split; [exact Hu|].
  apply matmul_shape in Ha1. destruct Ha1 as (_ & Ha1).
  apply np_multiply_ncols in Ha2; cbn [ncols np_reciprocal map_matrix] in *;
    congruence.
Qed.

Lemma ncols_reshape_c (c : ndarray F) : ncols (reshape_c c) = measures c.
Proof. now destruct c. Qed.

Lemma length_np_sum_axis0 (A : matrix F) : length (np_sum_axis0 A) = ncols A.
Proof. unfold np_sum_axis0. now rewrite length_map, length_seq. Qed.

(** Whenever the divergence returns, it returns one value per measure. *)
Lemma sinkhorn_mk_length (r : list F) (c : ndarray F) (M K : matrix F)
      (T : nat) (d : list F) :
  sinkhorn_mk r c M K T = Some d -> length d = measures c.
Proof.
  unfold sinkhorn_mk. intros H.
  bind_inversion H. bind_inversion H. bind_inversion H.
  destruct a1 as (u, v). cbn zeta in H.
  bind_inversion H. bind_inversion H. bind_inversion H.
  injection H as <-. rewrite length_np_sum_axis0.
  apply uv_iteration_ncols in Ha1. destruct Ha1 as (Hu & Hv).
  rewrite ncols_reshape_c in Hu, Hv.
  apply matmul_shape in Ha3. destruct Ha3 as (_ & Ha3).
  apply np_multiply_ncols in Ha4; congruence.
Qed.

Lemma map_matrix_shape (f : F -> F) (A : matrix F) (n m : nat) :
  has_shape A n m -> has_shape (map_matrix f A) n m.
Proof.
  intros ((Hlen & Hrows) & Hn & Hm). unfold has_shape, wf_matrix, map_matrix.
  simpl. repeat split; try assumption.
  - now rewrite length_map.
  - apply Forall_map. eapply Forall_impl; [|exact Hrows].
    intros row Hrow. now rewrite length_map.
Qed.

Lemma build_kernel_shape (exp : F -> F) (l : F) (M : matrix F) (n m : nat) :
  has_shape M n m -> has_shape (build_kernel exp l M) n m.
Proof. intros H. unfold build_kernel. now do 2 apply map_matrix_shape. Qed.

Lemma build_kernel_tabulate (exp : F -> F) (l : F) (M : matrix F) (n m : nat) :
  has_shape M n m ->
  build_kernel exp l M = exponential_kernel exp l n m (entry M).
Proof.
  intros H. unfold build_kernel, exponential_kernel.
  rewrite (tabulate_entry _ _ _ H) at 1.
  now rewrite !map_matrix_tabulate.
Qed.

(** On inputs of conforming shapes both divergence entry points return. *)
Lemma divergence_returns (exp : F -> F)
      (r : list F) (c : ndarray F) (M K : matrix F) (l : F) (n m T : nat) :
  length r = n -> has_shape M n m -> has_shape K n m ->
  wf_ndarray c -> locations c = m ->
  (exists d, sinkhorn_mk r c M K T = Some d)
  /\ (exists d, sinkhorn exp r c M l T = Some d).
Proof.
  intros Hr HM HK Hc Hm. split.
  - destruct (sinkhorn_mk_shaped r c M K n m T Hr HM HK Hc Hm) as (_ & Hd).
    eexists. exact Hd.
  - unfold sinkhorn. cbn zeta.
    destruct (sinkhorn_mk_shaped r c M (build_kernel exp l M) n m T Hr HM
                (build_kernel_shape exp l M n m HM) Hc Hm) as (_ & Hd).
    eexists. exact Hd.
Qed.

End ResultShapes.

(** ** The gradient readout *)

Section Gradient.
Context {F : Type} {S : Scalar F}.
Variable log : F -> F.

Lemma length_scatter_rows (I : list bool) :
  forall V old : list (list F), length (scatter_rows I V old) = length old.
Proof.
  induction I as [|b I IH]; intros V [|o old]; simpl; try reflexivity.
  destruct b; [destruct V|]; simpl; now rewrite IH.
Qed.

Lemma scatter_rows_Forall (P : list F -> Prop) (I : list bool) :
  forall V old : list (list F),
    Forall P V -> Forall P old -> Forall P (scatter_rows I V old).
Proof.
  induction I as [|b I IH]; intros V [|o old] HV Hold; simpl; try assumption.
  inversion Hold; subst.
  destruct b; [destruct V; inversion HV; subst|]; constructor; auto.
Qed.

Lemma scatter_rows_nth (I : list bool) :
  forall (V old : list (list F)) (i : nat),
    length I = length old ->
    length (filter (fun b => b) I) = length V ->
    i < length I ->
    nth i (scatter_rows I V old) []
    = if nth i I false then nth (rank I i) V [] else nth i old [].
Proof.
  induction I as [|b I IH]; intros V [|o old] i Hold HV Hi; simpl in *;
    try lia.
  destruct b; simpl in HV.
  - destruct V as [|v V]; [discriminate|]. simpl in HV.
    destruct i as [|i]; simpl.
    + reflexivity.
    + unfold rank. simpl. apply IH; lia.
  - destruct i as [|i]; simpl.
    + reflexivity.
    + unfold rank. simpl. apply IH; lia.
Qed.

Lemma rank_lt (I : list bool) :
  forall i, nth i I false = true ->
            rank I i < length (filter (fun b => b) I).
Proof.
  unfold rank. induction I as [|b I IH]; intros [|i] H; simpl in *;
    try discriminate.
  - subst b. simpl. lia.
  - specialize (IH i H). destruct b; simpl; lia.
Qed.

Lemma rows_np_zeros_nth (n k i : nat) :
  i < n -> nth i (rows (np_zeros n k)) [] = repeat (fzero : F) k.
Proof.
  intros Hi. unfold np_zeros, tabulate. simpl.
  rewrite (nth_indep _ [] ((fun _ : nat => map (fun _ : nat => (fzero : F)) (seq 0 k)) 0))
    by (rewrite length_map, length_seq; lia).
  rewrite (map_nth (fun _ : nat => map (fun _ : nat => (fzero : F)) (seq 0 k)) (seq 0 n) 0 i).
  apply map_const_seq.
Qed.

(** The gradient on inputs of conforming shapes: it never raises, and its
    rows are those of [log(u) / l] scattered over the rows the mask keeps,
    zero rows elsewhere. *)
Lemma Dsinkhorn_reg_shaped (r : list F) (c : ndarray F) (M : matrix F) (l : F)
      (K : matrix F) (n m T : nat) :
  length r = n -> has_shape M n m -> has_shape K n m ->
  wf_ndarray c -> locations c = m ->
  let I := np_gt0 r in
  let r' := compress I r in
  let k := measures c in
  exists u v G,
    _uv_iteration r' (reshape_c c) (keep_rows I M) (keep_rows I K) T = Some (u, v)
    /\ has_shape u (length r') k
    /\ Dsinkhorn_reg log r c M l K T = Some G
    /\ has_shape G n k
    /\ forall i, i < n ->
         nth i (rows G) []
         = if nth i I false
           then map (fun x => fdiv (log x) l) (nth (rank I i) (rows u) [])
           else repeat fzero k.
Proof.
  intros Hr HM HK Hc Hm I r' k.
  destruct (sinkhorn_mk_shaped r c M K n m T Hr HM HK Hc Hm) as (Huv & _).
  fold I r' k in Huv.
  set (u := tabulate (length r') k _) in Huv.
  set (v := tabulate m k _) in Huv.
  assert (HI : length I = n) by (unfold I; now rewrite length_np_gt0).
  assert (Hu : has_shape u (length r') k) by apply wf_tabulate.
  set (V := map_matrix (fun x => fdiv (log x) l) u).
  set (G := Mat n k (scatter_rows I (rows V) (rows (np_zeros n k)))).
  assert (Hcount : length (filter (fun b => b) I) = length (rows V)).
  { unfold V, map_matrix. cbn [rows]. rewrite length_map.
    destruct Hu as ((-> & _) & -> & _). symmetry.
    apply length_compress_np_gt0. }
  exists u, v, G. repeat split; try apply Hu; try exact Huv.
  - unfold Dsinkhorn_reg. fold I r'.
    rewrite (mask_rows_shaped I M n m HI HM), (mask_rows_shaped I K n m HI HK).
    cbn [bind]. rewrite Huv. cbn [bind]. rewrite ncols_reshape_c. fold k.
    unfold set_rows. fold V. cbn [nrows ncols np_zeros tabulate map_matrix V u].
    rewrite !Nat.eqb_refl.
    replace (length r' =? length (filter (fun b => b) I)) with true
      by (symmetry; apply Nat.eqb_eq, length_compress_np_gt0).
    cbn [andb]. unfold G. now rewrite HI.
  - unfold G. cbn [rows]. rewrite length_scatter_rows.
    cbn [np_zeros tabulate rows]. now rewrite length_map, length_seq.
  - unfold G. cbn [rows nrows ncols]. apply scatter_rows_Forall.
    + unfold V. apply (map_matrix_shape _ u (length r') k Hu).
    + apply (wf_tabulate n k).
  - intros i Hi. unfold G. cbn [rows].
    rewrite scatter_rows_nth.
    + destruct (nth i I false) eqn:Hb; [|now apply rows_np_zeros_nth].
      unfold V, map_matrix. cbn [rows].
      rewrite (nth_indep _ [] (map (fun x => fdiv (log x) l) [])).
      * apply map_nth.
      * rewrite length_map. unfold V, map_matrix in Hcount.
        cbn [rows] in Hcount. rewrite length_map in Hcount.
        rewrite <- Hcount. now apply rank_lt.
    + cbn [np_zeros tabulate rows]. rewrite length_map, length_seq. exact HI.
    + exact Hcount.
    + lia.
Qed.

End Gradient.

(** ** One column of a batch *)

Section Batch.
Context {F : Type} {S : Scalar F}.















End Batch.

(** * The claims *)

Ltac shape_by_computation :=
  repeat first
    [ split
    | reflexivity
    | apply Forall_cons
    | apply Forall_nil ].



Lemma uv_iteration_refines_scaling_witness :
  has_shape Sample.c 2 2 /\
  exists u v,
    _uv_iteration [0.5; 0.5]%float Sample.c Sample.M
                  (Mat 2 2 [[1; 0.25]; [0.25; 1]]%float) 3 = Some (u, v)
    /\ has_shape u 2 2 /\ has_shape v 2 2.
Proof.
  assert (Hc : has_shape Sample.c 2 2) by shape_by_computation.
  assert (HK : has_shape (Mat 2 2 [[1; 0.25]; [0.25; 1]]%float) 2 2)
    by shape_by_computation.
  split; [exact Hc|].
  eexists _, _.
  exact (uv_iteration_refines_scaling
           [0.5; 0.5]%float Sample.c Sample.M _ 2 2 2 3 eq_refl Hc HK).
Defined.

(** C3. On a nonnegative reference vector r of length n, [Dsinkhorn_reg]
    does not raise and returns an (n x k) table: n is the length of r before
    the filter.  Row i is the zero vector when r[i] == 0, and when r[i] > 0
    it is the row of log(u) / l that belongs to location i, where u is the
    scaling matrix of the iteration run on the inputs restricted to the rows
    where r is not exactly zero.  (That r has a positive entry is not needed.) *)
Theorem Dsinkhorn_reg_zero_fills
        {F : Type} {S : Scalar F} {O : ScalarOrder F} (log : F -> F)
        (r : list F) (c : ndarray F) (M : matrix F) (l : F) (K : matrix F)
        (n m T : nat) :
  Forall (fun x => fle fzero x = true) r ->
  length r = n -> has_shape M n m -> has_shape K n m ->
  wf_ndarray c -> locations c = m ->
  let I := nonzero_mask r in
  let k := measures c in
  exists u v G,
    _uv_iteration (compress I r) (reshape_c c) (keep_rows I M) (keep_rows I K) T
    = Some (u, v)
    /\ Dsinkhorn_reg log r c M l K T = Some G
    /\ has_shape G n k
    /\ forall i, i < n ->
         (feq (nth i r fzero) fzero = true ->
          nth i (rows G) [] = repeat fzero k)
         /\ (flt fzero (nth i r fzero) = true ->
             nth i (rows G) []
             = map (fun x => fdiv (log x) l) (nth (rank I i) (rows u) [])).
Proof.
  intros Hnonneg Hr HM HK Hc Hm I k.
  destruct (Dsinkhorn_reg_shaped log r c M l K n m T Hr HM HK Hc Hm)
    as (u & v & G & Huv & _ & HG & Hshape & Hrows).
  rewrite (np_gt0_nonzero_mask r Hnonneg) in Huv, Hrows. fold I k in Huv, Hrows.
  exists u, v, G. split; [exact Huv|]. split; [exact HG|]. split; [exact Hshape|].
  intros i Hi. rewrite (Hrows i Hi).
  assert (Hflag : nth i I false = negb (feq (nth i r fzero) fzero)).
  { unfold I, nonzero_mask.
    apply (nth_map_lt (fun x => negb (feq x fzero))). lia. }
  rewrite Hflag. split.
  - now intros ->.
  - intros Hpos. destruct (feq (nth i r fzero) fzero) eqn:Hzero; [|reflexivity].
    apply zero_not_pos in Hzero. congruence.
Qed.

Lemma Dsinkhorn_reg_zero_fills_witness :
  Forall (fun x => fle fzero x = true) Sample.r /\
  exists G,
    Dsinkhorn_reg Sample.log_stand_in Sample.r (Arr2 Sample.c) Sample.M 2%float
                  Sample.K 2 = Some G
    /\ has_shape G 3 2.
Proof.
  assert (Hr : Forall (fun x => fle fzero x = true) Sample.r)
    by shape_by_computation.
  assert (HM : has_shape Sample.M 3 2) by shape_by_computation.
  assert (HK : has_shape Sample.K 3 2) by shape_by_computation.
  assert (Hc : wf_ndarray (Arr2 Sample.c)) by shape_by_computation.
  split; [exact Hr|].
  destruct (Dsinkhorn_reg_zero_fills
              Sample.log_stand_in Sample.r (Arr2 Sample.c) Sample.M 2%float
              Sample.K 3 2 2 Hr eq_refl HM HK Hc eq_refl)
    as (u & v & G & _ & HG & Hshape & _).
  exists G. split; assumption.
Defined.

(** C4. [sinkhorn] is [sinkhorn_mk] on the kernel built from M and l: for an
    (n x m) distance matrix M, [sinkhorn(r, c, M, l, T)] and
    [sinkhorn_mk(r, c, M, K, T)] are equal, results and exceptions alike,
    when K is the (n x m) table of the values exp(-l * M[i, j]).  The sign
    of l plays no part. *)
Theorem sinkhorn_is_sinkhorn_mk_on_kernel
        {F : Type} {S : Scalar F} (exp : F -> F)
        (r : list F) (c : ndarray F) (M : matrix F) (l : F) (n m T : nat) :
  has_shape M n m ->
  sinkhorn exp r c M l T
  = sinkhorn_mk r c M (exponential_kernel exp l n m (entry M)) T.
Proof.
  intros HM. unfold sinkhorn. cbn zeta.
  now rewrite (build_kernel_tabulate exp l M n m HM).
Qed.

Lemma sinkhorn_is_sinkhorn_mk_on_kernel_witness :
  has_shape Sample.M 3 2 /\
  sinkhorn Sample.exp_stand_in Sample.r (Arr2 Sample.c) Sample.M 2%float 2
  = sinkhorn_mk Sample.r (Arr2 Sample.c) Sample.M
                (exponential_kernel Sample.exp_stand_in 2%float 3 2
                                    (entry Sample.M)) 2.
Proof.
  assert (HM : has_shape Sample.M 3 2) by shape_by_computation.
  split; [exact HM|].
  exact (sinkhorn_is_sinkhorn_mk_on_kernel
           Sample.exp_stand_in Sample.r (Arr2 Sample.c) Sample.M 2%float 3 2 2 HM).
Defined.



(** C6. On a reference vector of length n and a batch of k target measures
    (inputs of conforming shapes), both divergence entry points return, and
    return a sequence of exactly k values, however many entries of r the
    filter drops.  ([sinkhorn_mk_length] shows the length for every call that
    returns, conforming shapes or not.) *)
Theorem divergence_has_length_k
        {F : Type} {S : Scalar F} (exp : F -> F)
        (r : list F) (c : ndarray F) (M K : matrix F) (l : F) (n m T : nat) :
  length r = n -> has_shape M n m -> has_shape K n m ->
  wf_ndarray c -> locations c = m ->
  (exists d, sinkhorn_mk r c M K T = Some d /\ length d = measures c)
  /\ (exists d, sinkhorn exp r c M l T = Some d /\ length d = measures c).
Proof.
  intros Hr HM HK Hc Hm. split.
  - destruct (sinkhorn_mk_shaped r c M K n m T Hr HM HK Hc Hm) as (_ & Hd).
    eexists. split; [exact Hd|]. now rewrite length_map, length_seq.
  - unfold sinkhorn. cbn zeta.
    destruct (sinkhorn_mk_shaped r c M (build_kernel exp l M) n m T Hr HM
                (build_kernel_shape exp l M n m HM) Hc Hm) as (_ & Hd).
    eexists. split; [exact Hd|]. now rewrite length_map, length_seq.
Qed.

Lemma divergence_has_length_k_witness :
  has_shape Sample.M 3 2 /\ has_shape Sample.K 3 2 /\
  (exists d, sinkhorn_mk Sample.r (Arr2 Sample.c) Sample.M Sample.K 4 = Some d
             /\ length d = 2)
  /\ (exists d, sinkhorn Sample.exp_stand_in Sample.r (Arr2 Sample.c) Sample.M
                         2%float 4 = Some d
                /\ length d = 2).
Proof.
  assert (HM : has_shape Sample.M 3 2) by shape_by_computation.
  assert (HK : has_shape Sample.K 3 2) by shape_by_computation.
  assert (Hc : wf_ndarray (Arr2 Sample.c)) by shape_by_computation.
  split; [exact HM|]. split; [exact HK|].
  exact (divergence_has_length_k
           Sample.exp_stand_in Sample.r (Arr2 Sample.c) Sample.M Sample.K
           2%float 3 2 4 eq_refl HM HK Hc eq_refl).
Defined.

(** C9. The gradient does not depend on the distances: for two distance
    matrices M and M' with the same number of rows (in particular, of the
    same shape), [Dsinkhorn_reg] returns the same table, or raises for
    both.  M is only ever masked, and the mask only looks at its row count. *)
Theorem Dsinkhorn_reg_ignores_distances
        {F : Type} {S : Scalar F} (log : F -> F)
        (r : list F) (c : ndarray F) (M M' : matrix F) (l : F) (K : matrix F)
        (T : nat) :
  nrows M = nrows M' ->
  Dsinkhorn_reg log r c M l K T = Dsinkhorn_reg log r c M' l K T.
Proof.
  intros Hrows. unfold Dsinkhorn_reg, mask_rows. rewrite <- Hrows.
  destruct (length (np_gt0 r) =? nrows M); reflexivity.
Qed.

Lemma Dsinkhorn_reg_ignores_distances_witness :
  nrows Sample.M = nrows Sample.M' /\
  Dsinkhorn_reg Sample.log_stand_in Sample.r (Arr2 Sample.c) Sample.M 2%float
                Sample.K 2
  = Dsinkhorn_reg Sample.log_stand_in Sample.r (Arr2 Sample.c) Sample.M' 2%float
                  Sample.K 2.
Proof.
  split; [reflexivity|].
  exact (Dsinkhorn_reg_ignores_distances
           Sample.log_stand_in Sample.r (Arr2 Sample.c) Sample.M Sample.M'
           2%float Sample.K 2 eq_refl).
Defined.

(** C10. If every entry of r is exactly zero then, on inputs of conforming
    shapes, both divergence entry points return k values and each of them is
    zero: the filter drops every row and each column sum is empty. *)
Theorem divergence_of_zero_reference
        {F : Type} {S : Scalar F} {O : ScalarOrder F} (exp : F -> F)
        (r : list F) (c : ndarray F) (M K : matrix F) (l : F) (n m T : nat) :
  Forall (fun x => feq x fzero = true) r ->
  length r = n -> has_shape M n m -> has_shape K n m ->
  wf_ndarray c -> locations c = m ->
  sinkhorn_mk r c M K T = Some (repeat fzero (measures c))
  /\ sinkhorn exp r c M l T = Some (repeat fzero (measures c)).
Proof.
  intros Hzero Hr HM HK Hc Hm.
  assert (Hempty : compress (np_gt0 r) r = [])
    by now apply compress_all_false, np_gt0_all_zero.
  split.
  - destruct (sinkhorn_mk_shaped r c M K n m T Hr HM HK Hc Hm) as (_ & Hd).
    rewrite Hd, Hempty. cbn [length]. f_equal.
    apply (map_const_seq (fzero : F) 0 (measures c)).
  - unfold sinkhorn. cbn zeta.
    destruct (sinkhorn_mk_shaped r c M (build_kernel exp l M) n m T Hr HM
                (build_kernel_shape exp l M n m HM) Hc Hm) as (_ & Hd).
    rewrite Hd, Hempty. cbn [length]. f_equal.
    apply (map_const_seq (fzero : F) 0 (measures c)).
Qed.

Lemma divergence_of_zero_reference_witness :
  Forall (fun x => feq x fzero = true) Sample.zeros3 /\
  sinkhorn_mk Sample.zeros3 (Arr2 Sample.c) Sample.M Sample.K 20
  = Some [0; 0]%float
  /\ sinkhorn Sample.exp_stand_in Sample.zeros3 (Arr2 Sample.c) Sample.M
              2%float 20
     = Some [0; 0]%float.
Proof.
  assert (Hr : Forall (fun x => feq x fzero = true) Sample.zeros3)
    by shape_by_computation.
  assert (HM : has_shape Sample.M 3 2) by shape_by_computation.
  assert (HK : has_shape Sample.K 3 2) by shape_by_computation.
  assert (Hc : wf_ndarray (Arr2 Sample.c)) by shape_by_computation.
  split; [exact Hr|].
  exact (divergence_of_zero_reference
           Sample.exp_stand_in Sample.zeros3 (Arr2 Sample.c) Sample.M Sample.K
           2%float 3 2 20 Hr eq_refl HM HK Hc eq_refl).
Defined.

(** ** Signs through the computation

    [P] is the sign of everything the code computes by a sum or a
    reciprocal, [Q] the weaker sign of its inputs and of their products.
    In exact arithmetic both are [0 <= x]; in binary64, [P] excludes the
    negative zero, whose reciprocal is negative, and [Q] admits it. *)

Section SignClosure.
Context {F : Type} {S : Scalar F}.
Variables P Q : F -> Prop.
Hypothesis P_zero : P fzero.
Hypothesis P_one : P fone.
Hypothesis P_Q : forall x, P x -> Q x.
Hypothesis Q_mul : forall x y, Q x -> Q y -> Q (fmul x y).
Hypothesis P_mul : forall x y, P x -> P y -> P (fmul x y).
Hypothesis P_add : forall x y, P x -> Q y -> P (fadd x y).
Hypothesis P_recip : forall x, P x -> P (recip x).
Hypothesis P_positive : forall x, flt fzero x = true -> P x.

Lemma Forall_nth_default {A : Type} (R : A -> Prop) (l : list A) (i : nat) (d : A) :
  R d -> Forall R l -> R (nth i l d).
Proof.
  intros Hd Hl. revert i. induction Hl as [|a l Ha Hl IH]; intros [|i]; simpl; auto.
Qed.

Lemma entry_all (R : F -> Prop) (A : matrix F) (i j : nat) :
  R fzero -> all_entries R A -> R (entry A i j).
Proof.
  intros H0 HA. unfold entry.
  apply Forall_nth_default; [exact H0|].
  apply (Forall_nth_default (Forall R)); [constructor | exact HA].
Qed.

Lemma tabulate_all (R : F -> Prop) (n k : nat) (f : nat -> nat -> F) :
  (forall i j, R (f i j)) -> all_entries R (tabulate n k f).
Proof.
  intros H. unfold all_entries, tabulate. cbn [rows].
  apply Forall_map, Forall_forall. intros i _.
  apply Forall_map, Forall_forall. intros j _. apply H.
Qed.

Lemma map_matrix_all (R R' : F -> Prop) (f : F -> F) (A : matrix F) :
  (forall x, R x -> R' (f x)) -> all_entries R A -> all_entries R' (map_matrix f A).
Proof.
  intros Hf HA. unfold all_entries, map_matrix in *. cbn [rows].
  apply Forall_map. eapply Forall_impl; [|exact HA].
  intros row Hrow. apply Forall_map. eapply Forall_impl; [|exact Hrow].
  exact Hf.
Qed.

Lemma all_entries_weaken (A : matrix F) : all_entries P A -> all_entries Q A.
Proof.
  unfold all_entries. intros H. eapply Forall_impl; [|exact H].
  intros row Hrow. eapply Forall_impl; [|exact Hrow]. exact P_Q.
Qed.

Lemma fold_left_sign (l : list F) :
  forall acc, P acc -> Forall Q l -> P (fold_left fadd l acc).
Proof.
  induction l as [|a l IH]; intros acc Hacc Hl; simpl; [exact Hacc|].
  inversion Hl; subst. apply IH; auto.
Qed.

Lemma bigsum_sign (n : nat) (f : nat -> F) :
  (forall i, Q (f i)) -> P (bigsum n f).
Proof.
  intros H. unfold bigsum, vsum. apply fold_left_sign; [exact P_zero|].
  apply Forall_map, Forall_forall. intros i _. apply H.
Qed.

Lemma Q_zero : Q fzero.
Proof. apply P_Q, P_zero. Qed.

Lemma matmul_sign (A B C : matrix F) :
  all_entries Q A -> all_entries Q B -> matmul A B = Some C -> all_entries P C.
Proof.
  intros HA HB. unfold matmul. destruct (ncols A =? nrows B); [|discriminate].
  intros [= <-]. apply tabulate_all. intros i j. apply bigsum_sign.
  intros l. apply Q_mul; apply entry_all; auto using Q_zero.
Qed.

Lemma np_multiply_sign (R : F -> Prop) (A B C : matrix F) :
  R fzero -> (forall x y, R x -> R y -> R (fmul x y)) ->
  all_entries R A -> all_entries R B -> np_multiply A B = Some C ->
  all_entries R C.
Proof.
  intros H0 Hmul HA HB H. unfold np_multiply in H.
  bind_inversion H. bind_inversion H. injection H as <-.
  apply tabulate_all. intros i j. apply Hmul; now apply entry_all.
Qed.

Lemma np_transpose_sign (R : F -> Prop) (A : matrix F) :
  R fzero -> all_entries R A -> all_entries R (np_transpose A).
Proof.
  intros H0 HA. apply tabulate_all. intros i j. now apply entry_all.
Qed.

Lemma np_reciprocal_sign (A : matrix F) :
  all_entries P A -> all_entries P (np_reciprocal A).
Proof. apply map_matrix_all. exact P_recip. Qed.

Lemma uv_step_sign (R c K x x' : matrix F) :
  all_entries P R -> all_entries Q c -> all_entries Q K -> all_entries P x ->
  uv_step R c K x = Some x' -> all_entries P x'.
Proof.
  intros HR Hc HK Hx H. unfold uv_step in H.
  bind_inversion H. bind_inversion H.
  apply matmul_sign in Ha;
    [|now apply np_transpose_sign; auto using Q_zero
     |now apply all_entries_weaken, np_reciprocal_sign].
  apply (np_multiply_sign Q) in Ha0;
    auto using Q_zero, all_entries_weaken, np_reciprocal_sign.
  apply matmul_sign in H; auto using all_entries_weaken.
Qed.

Lemma for_range_sign (R c K : matrix F) (T : nat) :
  all_entries P R -> all_entries Q c -> all_entries Q K ->
  forall x x', all_entries P x ->
               for_range T (uv_step R c K) x = Some x' -> all_entries P x'.
Proof.
  intros HR Hc HK. induction T as [|T IH]; intros x x' Hx H; cbn [for_range] in H.
  - now injection H as <-.
  - bind_inversion H. apply (IH a x'); [|exact H].
    exact (uv_step_sign R c K x a HR Hc HK Hx Ha).
Qed.

Lemma np_diag_sign (v : list F) : Forall P v -> all_entries P (np_diag v).
Proof.
  intros Hv. apply tabulate_all. intros i j.
  destruct (i =? j); [|exact P_zero]. now apply Forall_nth_default.
Qed.

Lemma uv_iteration_sign (r : list F) (c M K u v : matrix F) (T : nat) :
  Forall P r -> all_entries Q c -> all_entries Q K ->
  _uv_iteration r c M K T = Some (u, v) ->
  all_entries P u /\ all_entries Q v.
Proof.
  intros Hr Hc HK H. unfold _uv_iteration in H.
  bind_inversion H. bind_inversion H. bind_inversion H. bind_inversion H.
  injection H as <- <-.
  apply matmul_sign in Ha; auto.
  2:{ apply all_entries_weaken, np_diag_sign. unfold np_reciprocal1.
      apply Forall_map. eapply Forall_impl; [|exact Hr]. exact P_recip. }
  eapply for_range_sign in Ha0; eauto.
  2:{ apply tabulate_all. intros i j. exact P_one. }
  assert (Hu : all_entries P (np_reciprocal a0)) by now apply np_reciprocal_sign.
  split; [exact Hu|].
  apply matmul_sign in Ha1;
    [|now apply np_transpose_sign; auto using Q_zero
     |now apply all_entries_weaken].
  apply (np_multiply_sign Q) in Ha2;
    auto using Q_zero, all_entries_weaken, np_reciprocal_sign.
Qed.

Lemma compress_np_gt0_positive (r : list F) :
  Forall (fun x => flt fzero x = true) (compress (np_gt0 r) r).
Proof.
  induction r as [|x r IH]; simpl; [constructor|].
  destruct (flt fzero x) eqn:Hx; auto.
Qed.

Lemma mask_rows_sign (R : F -> Prop) (I : list bool) (A A' : matrix F) :
  all_entries R A -> mask_rows I A = Some A' -> all_entries R A'.
Proof.
  unfold mask_rows. intros HA. destruct (length I =? nrows A); [|discriminate].
  intros [= <-]. unfold all_entries. cbn [rows]. now apply compress_Forall.
Qed.

Lemma reshape_c_sign (R : F -> Prop) (c : ndarray F) :
  all_entries_nd R c -> all_entries R (reshape_c c).
Proof.
  destruct c as [v|A]; simpl; [|auto].
  intros Hv. unfold all_entries, reshape_column. cbn [rows].
  apply Forall_map. eapply Forall_impl; [|exact Hv].
  intros x Hx. now repeat constructor.
Qed.

Lemma np_sum_axis0_sign (A : matrix F) :
  all_entries Q A -> Forall P (np_sum_axis0 A).
Proof.
  intros HA. unfold np_sum_axis0. apply Forall_map, Forall_forall.
  intros j _. apply bigsum_sign. intros i. apply entry_all; auto using Q_zero.
Qed.

(** Every value of a divergence computed from inputs of sign [Q] has sign
    [P], whatever the reference vector: the mask keeps its positive
    entries only. *)
Lemma sinkhorn_mk_sign (r : list F) (c : ndarray F) (M K : matrix F) (T : nat)
      (d : list F) :
  all_entries_nd Q c -> all_entries Q M -> all_entries Q K ->
  sinkhorn_mk r c M K T = Some d -> Forall P d.
Proof.
  intros Hc HM HK H. unfold sinkhorn_mk in H.
  bind_inversion H. bind_inversion H. bind_inversion H.
  destruct a1 as (u, v). cbn zeta in H.
  bind_inversion H. bind_inversion H. bind_inversion H. injection H as <-.
  apply (mask_rows_sign Q) in Ha, Ha0; auto.
  apply uv_iteration_sign in Ha1; auto using reshape_c_sign.
  2:{ eapply Forall_impl; [|apply compress_np_gt0_positive]. exact P_positive. }
  destruct Ha1 as (Hu & Hv).
  apply (np_multiply_sign Q) in Ha2; auto using Q_zero.
  apply matmul_sign in Ha3; auto.
  apply (np_multiply_sign P) in Ha4; auto.
  now apply np_sum_axis0_sign, all_entries_weaken.
Qed.

Lemma build_kernel_sign (exp : F -> F) (l : F) (M : matrix F) :
  (forall x, Q (exp x)) -> all_entries Q (build_kernel exp l M).
Proof.
  intros Hexp. unfold build_kernel.
  apply (map_matrix_all (fun _ => True)); [auto|].
  apply (map_matrix_all (fun _ => True)); [auto|].
  unfold all_entries. apply Forall_forall. intros row _.
  apply Forall_forall. auto.
Qed.

End SignClosure.

(** ** Signs in binary64 *)

Section Float64Signs.

Lemma binary_round_aux_sign (p e : Z) (s : bool) (m ex : Z) (l : location) :
  sf_has_sign s (binary_round_aux p e s m ex l) = true.
Proof.
  unfold binary_round_aux.
  destruct (shr_fexp p e m ex l) as (mrs', e').
  destruct (shr_fexp p e _ e' loc_Exact) as (mrs'', e'').
  destruct (shr_m mrs''); [| destruct (Z.leb _ _) |]; simpl;
    try reflexivity; apply Bool.eqb_reflx.
Qed.

Lemma binary_round_sign (p e : Z) (s : bool) (m : positive) (ex : Z) :
  sf_has_sign s (binary_round p e s m ex) = true.
Proof.
  unfold binary_round. destruct (shl_align _ _ _) as (mz, ez).
  apply binary_round_aux_sign.
Qed.

Ltac by_sign_cases x y :=
  destruct x as [[|]|[|]| |[|] ? ?], y as [[|]|[|]| |[|] ? ?]; simpl;
  try reflexivity; try discriminate.

Lemma SFmul_not_negative (p e : Z) (x y : spec_float) :
  sf_not_negative x = true -> sf_not_negative y = true ->
  sf_not_negative (SFmul p e x y) = true.
Proof.
  by_sign_cases x y. intros _ _.
  match goal with
  | |- context [binary_round_aux ?p ?e ?s ?m ?z ?l] =>
      pose proof (binary_round_aux_sign p e s m z l) as H;
      destruct (binary_round_aux p e s m z l); simpl in *; auto
  end.
Qed.

Lemma SFmul_sign_clear (p e : Z) (x y : spec_float) :
  sf_sign_clear x = true -> sf_sign_clear y = true ->
  sf_sign_clear (SFmul p e x y) = true.
Proof.
  by_sign_cases x y. intros _ _. apply binary_round_aux_sign.
Qed.

Lemma SFadd_sign_clear (p e : Z) (x y : spec_float) :
  sf_sign_clear x = true -> sf_not_negative y = true ->
  sf_sign_clear (SFadd p e x y) = true.
Proof.
  by_sign_cases x y. intros _ _. unfold binary_normalize. simpl.
  destruct (shl_align _ _ _) as (a, ea), (shl_align _ _ _) as (b, eb). simpl.
  apply binary_round_sign.
Qed.

Lemma SFdiv_sign_clear (p e : Z) (x y : spec_float) :
  sf_sign_clear x = true -> sf_sign_clear y = true ->
  sf_sign_clear (SFdiv p e x y) = true.
Proof.
  by_sign_cases x y. intros _ _.
  destruct (SFdiv_core_binary _ _ _ _ _ _) as ((mz, ez), lz).
  apply binary_round_aux_sign.
Qed.

Lemma sign_clear_zero : sign_clear 0.
Proof. reflexivity. Qed.

Lemma sign_clear_one : sign_clear 1.
Proof. reflexivity. Qed.

Lemma sign_clear_not_negative (x : float) : sign_clear x -> not_negative x.
Proof. unfold sign_clear, not_negative. now destruct (Prim2SF x). Qed.

Lemma mul_not_negative (x y : float) :
  not_negative x -> not_negative y -> not_negative (x * y).
Proof. unfold not_negative. rewrite mul_spec. apply SFmul_not_negative. Qed.

Lemma mul_sign_clear (x y : float) :
  sign_clear x -> sign_clear y -> sign_clear (x * y).
Proof. unfold sign_clear. rewrite mul_spec. apply SFmul_sign_clear. Qed.

Lemma add_sign_clear (x y : float) :
  sign_clear x -> not_negative y -> sign_clear (x + y).
Proof.
  unfold sign_clear, not_negative. rewrite add_spec. apply SFadd_sign_clear.
Qed.

Lemma div_sign_clear (x y : float) :
  sign_clear x -> sign_clear y -> sign_clear (x / y).
Proof. unfold sign_clear. rewrite div_spec. apply SFdiv_sign_clear. Qed.

Lemma recip_sign_clear (x : float) : sign_clear x -> sign_clear (recip x).
Proof. apply div_sign_clear, sign_clear_one. Qed.

Lemma abs_sign_clear (x : float) : sign_clear (abs x).
Proof. unfold sign_clear. rewrite abs_spec. now destruct (Prim2SF x). Qed.

Lemma positive_sign_clear (x : float) : PrimFloat.ltb 0 x = true -> sign_clear x.
Proof.
  unfold sign_clear. rewrite ltb_spec, Prim2SF_zero.
  destruct (Prim2SF x) as [s|s| |s m e]; try destruct s; cbn; congruence.
Qed.

Lemma nonneg_not_negative (x : float) : nonneg x -> not_negative x.
Proof.
  unfold nonneg, not_negative. cbn [fle fzero float64].
  rewrite leb_spec, Prim2SF_zero.
  destruct (Prim2SF x) as [s|s| |s m e]; try destruct s; cbn; congruence.
Qed.

Lemma SFeqb_refl_nan (x : spec_float) : SFeqb x x = false -> x = S754_nan.
Proof.
  destruct x as [s|s| |s m e]; try destruct s; cbn; try discriminate;
    try reflexivity; rewrite Z.compare_refl, Pos.compare_cont_refl; discriminate.
Qed.

Lemma nonneg_or_nan_not_negative (x : float) : nonneg_or_nan x -> not_negative x.
Proof.
  intros [H|H]; [now apply nonneg_not_negative|].
  unfold PrimFloat.is_nan in H. apply negb_true_iff in H.
  rewrite eqb_spec in H. apply SFeqb_refl_nan in H.
  unfold not_negative. now rewrite H.
Qed.

Lemma sign_clear_nonneg_or_nan (x : float) : sign_clear x -> nonneg_or_nan x.
Proof.
  unfold sign_clear, nonneg_or_nan, PrimFloat.is_nan.
  rewrite leb_spec, eqb_spec, Prim2SF_zero.
  destruct (Prim2SF x) as [s|s| |s m e]; try destruct s; cbn;
    try discriminate; auto.
Qed.

Lemma exp_stand_in_nonneg_or_nan (x : float) :
  nonneg_or_nan (Sample.exp_stand_in x).
Proof.
  apply sign_clear_nonneg_or_nan. unfold Sample.exp_stand_in.
  apply div_sign_clear; [apply sign_clear_one|].
  apply add_sign_clear; [apply sign_clear_one|].
  apply sign_clear_not_negative, abs_sign_clear.
Qed.

Lemma all_entries_impl {F : Type} (R R' : F -> Prop) (A : matrix F) :
  (forall x, R x -> R' x) -> all_entries R A -> all_entries R' A.
Proof.
  intros H HA. unfold all_entries in *. eapply Forall_impl; [|exact HA].
  intros row Hrow. eapply Forall_impl; [|exact Hrow]. exact H.
Qed.

(** In binary64, a divergence computed from nonnegative targets, distances
    and kernel has no negative value: each is [>= 0] or a NaN. *)
Lemma sinkhorn_mk_float64_sign (r : list float) (c : ndarray float)
      (M K : matrix float) (T : nat) (d : list float) :
  all_entries_nd not_negative c -> all_entries not_negative M ->
  all_entries not_negative K ->
  sinkhorn_mk r c M K T = Some d -> Forall nonneg_or_nan d.
Proof.
  intros Hc HM HK H.
  eapply Forall_impl; [exact sign_clear_nonneg_or_nan|].
  exact (sinkhorn_mk_sign sign_clear not_negative
           sign_clear_zero sign_clear_one sign_clear_not_negative
           mul_not_negative mul_sign_clear add_sign_clear recip_sign_clear
           positive_sign_clear r c M K T d Hc HM HK H).
Qed.

End Float64Signs.

Lemma all_entries_nd_impl {F : Type} (R R' : F -> Prop) (c : ndarray F) :
  (forall x, R x -> R' x) -> all_entries_nd R c -> all_entries_nd R' c.
Proof.
  intros H. destruct c as [v|A]; simpl.
  - intros Hv. eapply Forall_impl; [|exact Hv]. exact H.
  - now apply all_entries_impl.
Qed.

(** C7, as stated, fails in binary64: on nonnegative inputs the divergence
    can be a NaN, and a NaN is not [>= 0].  With one location on each side
    at distance 0 (so the kernel is exp(-l * 0) = 1 for every l) and the
    default 20 iterations: for r = c = [2^-1074], of equal mass, 1/r
    overflows to infinity; for r = [1] and c = [0], x becomes 0 and u
    infinite, and the readout multiplies an infinity by a zero. *)
Lemma divergence_can_be_nan :
  Forall nonneg [Sample.tiny; 1%float; 0%float]
  /\ all_entries nonneg Sample.M1 /\ all_entries nonneg Sample.K1
  /\ sinkhorn_mk [Sample.tiny] (Arr1 [Sample.tiny]) Sample.M1 Sample.K1 20
     = Some [nan]
  /\ sinkhorn_mk [1%float] (Arr1 [0%float]) Sample.M1 Sample.K1 20
     = Some [nan]
  /\ fle fzero nan = false.
Proof.
  repeat split; try reflexivity; repeat constructor.
Qed.

(** The same through [sinkhorn], for every [exp] with [exp(-0) = 1]. *)
Lemma sinkhorn_can_be_nan (exp : float -> float) (l : float) :
  exp (- l * 0)%float = 1%float ->
  sinkhorn exp [1%float] (Arr1 [0%float]) Sample.M1 l 20 = Some [nan].
Proof.
  intros H. unfold sinkhorn, build_kernel, map_matrix, Sample.M1.
  cbn [rows nrows ncols map fmul fneg float64]. rewrite H.
  reflexivity.
Qed.

(** C7, amended.  In binary64, for nonnegative c, M and K (for [sinkhorn],
    a kernel built by an [exp] that never returns a negative value), every
    value the divergence entry points return is [>= 0] or is a NaN; on
    inputs of conforming shapes they do return.  Neither the sign of r
    (only its positive entries are kept) nor that of l is needed. *)
Theorem divergence_nonneg_or_nan
        (exp : float -> float)
        (r : list float) (c : ndarray float) (M K : matrix float) (l : float)
        (n m T : nat) :
  (forall x, nonneg_or_nan (exp x)) ->
  all_entries_nd nonneg c -> all_entries nonneg M -> all_entries nonneg K ->
  length r = n -> has_shape M n m -> has_shape K n m ->
  wf_ndarray c -> locations c = m ->
  (exists d, sinkhorn_mk r c M K T = Some d /\ Forall nonneg_or_nan d)
  /\ (exists d, sinkhorn exp r c M l T = Some d /\ Forall nonneg_or_nan d).
Proof.
  intros Hexp Hc HM HK Hr HMs HKs Hcs Hm.
  apply (all_entries_nd_impl nonneg not_negative c nonneg_not_negative) in Hc.
  apply (all_entries_impl nonneg not_negative M nonneg_not_negative) in HM.
  apply (all_entries_impl nonneg not_negative K nonneg_not_negative) in HK.
  destruct (divergence_returns exp r c M K l n m T Hr HMs HKs Hcs Hm)
    as ((d1 & Hd1) & (d2 & Hd2)).
  split.
  - exists d1. split; [exact Hd1|].
    exact (sinkhorn_mk_float64_sign r c M K T d1 Hc HM HK Hd1).
  - exists d2. split; [exact Hd2|].
    refine (sinkhorn_mk_float64_sign r c M (build_kernel exp l M) T d2 Hc HM _ Hd2).
    apply (build_kernel_sign not_negative).
    intros x. apply nonneg_or_nan_not_negative, Hexp.
Qed.

Lemma divergence_nonneg_or_nan_witness :
  all_entries nonneg Sample.M /\ all_entries nonneg Sample.K /\
  (exists d, sinkhorn_mk Sample.r (Arr2 Sample.c) Sample.M Sample.K 20 = Some d
             /\ Forall nonneg_or_nan d)
  /\ (exists d, sinkhorn Sample.exp_stand_in Sample.r (Arr2 Sample.c) Sample.M
                         2%float 20 = Some d
                /\ Forall nonneg_or_nan d).
Proof.
  assert (HM : has_shape Sample.M 3 2) by shape_by_computation.
  assert (HK : has_shape Sample.K 3 2) by shape_by_computation.
  assert (Hc : wf_ndarray (Arr2 Sample.c)) by shape_by_computation.
  assert (HM0 : all_entries nonneg Sample.M) by (repeat constructor).
  assert (HK0 : all_entries nonneg Sample.K) by (repeat constructor).
  assert (Hc0 : all_entries_nd nonneg (Arr2 Sample.c)) by (repeat constructor).
  split; [exact HM0|]. split; [exact HK0|].
  exact (divergence_nonneg_or_nan
           Sample.exp_stand_in Sample.r (Arr2 Sample.c) Sample.M Sample.K
           2%float 3 2 20 exp_stand_in_nonneg_or_nan Hc0 HM0 HK0
           eq_refl HM HK Hc eq_refl).
Defined.

(** ** The store: what a call reads, allocates and writes *)

Section StoreFacts.
Context {F : Type} {S : Scalar F}.

Lemma extends_refl (s : store (F := F)) : extends s s.
Proof. exists []. now rewrite app_nil_r. Qed.

Lemma extends_trans (s1 s2 s3 : store (F := F)) :
  extends s1 s2 -> extends s2 s3 -> extends s1 s3.
Proof. intros (t & ->) (t' & ->). exists (t ++ t'). now rewrite app_assoc. Qed.

Lemma extends_app (s t : store (F := F)) : extends s (s ++ t).
Proof. now exists t. Qed.

Lemma extends_firstn (s s' : store (F := F)) :
  extends s s' -> firstn (length s) s' = s.
Proof.
  intros (t & ->). rewrite firstn_app, Nat.sub_diag, firstn_all. simpl.
  apply app_nil_r.
Qed.

Lemma read_extends (s s' : store) (h : handle) (a : ndarray F) :
  extends s s' -> read s h = Some a -> read s' h = Some a.
Proof.
  intros (t & ->) H. unfold read in *.
  destruct (nth_error s (addr h)) as [b|] eqn:Hb; [|discriminate].
  rewrite nth_error_app1 by (apply nth_error_Some; congruence).
  now rewrite Hb.
Qed.

Lemma read_alloc (s : store) (a : ndarray F) :
  read (s ++ [a]) (Handle (length s) []) = Some a.
Proof.
  unfold read. cbn [addr via].
  rewrite nth_error_app2, Nat.sub_diag by lia. reflexivity.
Qed.

Lemma read_view (s : store) (h : handle) (w : view) :
  read s (Handle (addr h) (via h ++ [w])) = bind (read s h) (apply_view (F := F) w).
Proof.
  unfold read. cbn [addr via].
  destruct (nth_error s (addr h)) as [b|]; [|reflexivity]. cbn [bind].
  unfold apply_views. now rewrite fold_left_app.
Qed.

Lemma wp_bind {A B : Type} (m : St A) (f : A -> St B) (s : store (F := F))
      (post : option B -> store -> Prop) :
  wp m s (fun o s' => match o with
                      | Some a => wp (f a) s' post
                      | None => post None s'
                      end) ->
  wp (bindS m f) s post.
Proof.
  unfold wp, bindS. destruct (m s) as ([a|], s'); simpl; auto.
Qed.

Lemma wp_ret {A : Type} (a : A) (s : store (F := F))
      (post : option A -> store -> Prop) :
  post (Some a) s -> wp (ret a) s post.
Proof. auto. Qed.

Lemma wp_load1 (h : handle) (v : list F) (s : store)
      (post : option (list F) -> store -> Prop) :
  read s h = Some (Arr1 v) -> post (Some v) s -> wp (load1 h) s post.
Proof.
  intros H Hpost. unfold wp, load1, bindS, load. now rewrite H.
Qed.

Lemma wp_load2 (h : handle) (A : matrix F) (s : store)
      (post : option (matrix F) -> store -> Prop) :
  read s h = Some (Arr2 A) -> post (Some A) s -> wp (load2 h) s post.
Proof.
  intros H Hpost. unfold wp, load2, bindS, load. now rewrite H.
Qed.

(** A fresh array is read back through its handle, and no cell of the store
    changes. *)
Lemma wp_alloc (a : ndarray F) (s : store)
      (post : option handle -> store -> Prop) :
  (forall s' h, extends s s' -> addr h = length s -> via h = [] ->
                read s' h = Some a -> post (Some h) s') ->
  wp (alloc a) s post.
Proof.
  intros H. unfold wp, alloc. cbn [fst snd].
  apply H; auto using extends_app, read_alloc.
Qed.

(** A call that computes a new array from values: on success the result is
    allocated, on failure nothing is written. *)
Lemma wp_lift_alloc {A : Type} (o : option A) (g : A -> ndarray F) (s : store)
      (post : option handle -> store -> Prop) :
  (forall s', extends s s' ->
              match o with
              | Some a => forall h, read s' h = Some (g a) -> post (Some h) s'
              | None => post None s'
              end) ->
  wp (bindS (lift o) (fun a => alloc (g a))) s post.
Proof.
  intros H. apply wp_bind. destruct o as [a|]; cbn [lift].
  - apply wp_ret, wp_alloc. intros s' h E _ _ Hh.
    exact (H s' E h Hh).
  - exact (H s (extends_refl s)).
Qed.

Lemma wp_matmul_st (a b : handle) (A B : matrix F) (s : store)
      (post : option handle -> store -> Prop) :
  read s a = Some (Arr2 A) -> read s b = Some (Arr2 B) ->
  result_post s (matmul A B) Arr2 post ->
  wp (matmul_st a b) s post.
Proof.
  intros Ha Hb H. unfold matmul_st.
  apply wp_bind, (wp_load2 a A); [exact Ha|].
  apply wp_bind, (wp_load2 b B); [exact Hb|].
  now apply wp_lift_alloc.
Qed.

Lemma wp_multiply_st (a b : handle) (A B : matrix F) (s : store)
      (post : option handle -> store -> Prop) :
  read s a = Some (Arr2 A) -> read s b = Some (Arr2 B) ->
  result_post s (np_multiply A B) Arr2 post ->
  wp (multiply_st a b) s post.
Proof.
  intros Ha Hb H. unfold multiply_st.
  apply wp_bind, (wp_load2 a A); [exact Ha|].
  apply wp_bind, (wp_load2 b B); [exact Hb|].
  now apply wp_lift_alloc.
Qed.

Lemma wp_total_alloc (a : ndarray F) (s : store)
      (post : option handle -> store -> Prop) :
  result_post s (Some a) (fun x => x) post -> wp (alloc a) s post.
Proof.
  intros H. apply wp_alloc. intros s' h E _ _ Hh. exact (H s' E h Hh).
Qed.

Lemma wp_map_st (f : F -> F) (a : handle) (A : matrix F) (s : store)
      (post : option handle -> store -> Prop) :
  read s a = Some (Arr2 A) ->
  result_post s (Some (map_matrix f A)) Arr2 post ->
  wp (map_st f a) s post.
Proof.
  intros Ha H. unfold map_st.
  apply wp_bind, (wp_load2 a A); [exact Ha|].
  now apply wp_total_alloc.
Qed.

Lemma wp_reciprocal_st (a : handle) (A : matrix F) (s : store)
      (post : option handle -> store -> Prop) :
  read s a = Some (Arr2 A) ->
  result_post s (Some (np_reciprocal A)) Arr2 post ->
  wp (reciprocal_st a) s post.
Proof. apply (wp_map_st recip). Qed.

Lemma read_transpose (s : store) (K : handle) (A : matrix F) :
  read s K = Some (Arr2 A) ->
  read s (Handle (addr K) (via K ++ [Transposed])) = Some (Arr2 (np_transpose A)).
Proof. intros H. now rewrite read_view, H. Qed.

End StoreFacts.

(** Moving to the store a call leaves: every array read before is read
    again, unchanged. *)
Ltac next_store :=
  let s' := fresh "s" in
  let E := fresh "E" in
  intros s' E;
  repeat match goal with
         | H : read ?s ?h = Some ?a |- _ =>
             match type of E with
             | extends s s' => apply (read_extends s s' h a E) in H
             end
         | H : extends ?s0 ?s |- _ =>
             match type of E with
             | extends s s' =>
                 apply (fun H0 => extends_trans s0 s s' H0 E) in H
             end
         end;
  clear E.

Section StoreRuns.
Context {F : Type} {S : Scalar F}.

Lemma wp_uv_step_st (R c K x : handle) (RA cA KA xA : matrix F)
      (s : store) (post : option handle -> store -> Prop) :
  read s R = Some (Arr2 RA) -> read s c = Some (Arr2 cA) ->
  read s K = Some (Arr2 KA) -> read s x = Some (Arr2 xA) ->
  result_post s (uv_step RA cA KA xA) Arr2 post ->
  wp (uv_step_st R c K x) s post.
Proof.
  intros HR Hc HK Hx H. pose proof (extends_refl s) as E0.
  unfold result_post, uv_step_st, uv_step in *.
  apply wp_bind, wp_ret.
  apply wp_bind. eapply wp_reciprocal_st; [exact Hx|]. next_store. intros xr Hxr.
  apply wp_bind.
  eapply wp_matmul_st; [apply read_transpose; exact HK | exact Hxr |]. next_store.
  destruct (matmul (np_transpose KA) (np_reciprocal xA)) as [t|]; cbn [bind] in *;
    [|now apply H].
  intros ht Ht.
  apply wp_bind. eapply wp_reciprocal_st; [exact Ht|]. next_store. intros tr Htr.
  apply wp_bind. eapply wp_multiply_st; [exact Hc | exact Htr |]. next_store.
  destruct (np_multiply cA (np_reciprocal t)) as [y|]; cbn [bind] in *;
    [|now apply H].
  intros hy Hy.
  eapply wp_matmul_st; [exact HR | exact Hy |]. next_store.
  now apply H.
Qed.

Lemma wp_for_range_st (R c K : handle) (RA cA KA : matrix F) (T : nat) :
  forall (x : handle) (xA : matrix F) (s : store)
         (post : option handle -> store -> Prop),
    read s R = Some (Arr2 RA) -> read s c = Some (Arr2 cA) ->
    read s K = Some (Arr2 KA) -> read s x = Some (Arr2 xA) ->
    result_post s (for_range T (uv_step RA cA KA) xA) Arr2 post ->
    wp (for_range_st T (uv_step_st R c K) x) s post.
Proof.
  induction T as [|T IH]; intros x xA s post HR Hc HK Hx H;
    pose proof (extends_refl s) as E0;
    unfold result_post in *; cbn [for_range_st for_range] in *.
  - apply wp_ret. now apply H.
  - apply wp_bind. eapply wp_uv_step_st; eauto. next_store.
    destruct (uv_step RA cA KA xA) as [x'|]; cbn [bind] in *; [|now apply H].
    intros hx Hx'. apply (IH hx x'); auto.
    unfold result_post. next_store. now apply H.
Qed.

(** The iteration over the store computes what [_uv_iteration] computes of
    the arrays it is given, and only allocates. *)
Lemma wp_uv_iteration_st (r c M K : handle) (rv : list F) (cA MA KA : matrix F)
      (T : nat) (s : store) (post : option (handle * handle) -> store -> Prop) :
  read s r = Some (Arr1 rv) -> read s c = Some (Arr2 cA) ->
  read s K = Some (Arr2 KA) ->
  (forall s', extends s s' ->
              match _uv_iteration rv cA MA KA T with
              | Some (u, v) =>
                  forall hu hv, read s' hu = Some (Arr2 u) ->
                                read s' hv = Some (Arr2 v) ->
                                post (Some (hu, hv)) s'
              | None => post None s'
              end) ->
  wp (_uv_iteration_st r c M K T) s post.
Proof.
  intros Hr Hc HK H. pose proof (extends_refl s) as E0.
  unfold _uv_iteration_st, _uv_iteration in *.
  apply wp_bind. unfold len_st. apply wp_bind, (wp_load1 r rv); [exact Hr|].
  apply wp_ret.
  apply wp_bind. unfold shape1_st. apply wp_bind, (wp_load2 c cA); [exact Hc|].
  apply wp_ret.
  apply wp_bind. unfold ones_st. apply wp_total_alloc. next_store. intros hx Hx.
  apply wp_bind. unfold reciprocal1_st.
  apply wp_bind, (wp_load1 r rv); [exact Hr|].
  apply wp_total_alloc. next_store. intros hrr Hrr.
  apply wp_bind. unfold diag_st.
  apply wp_bind, (wp_load1 hrr (np_reciprocal1 rv)); [exact Hrr|].
  apply wp_total_alloc. next_store. intros hD HD.
  apply wp_bind. eapply wp_matmul_st; [exact HD | exact HK |]. next_store.
  destruct (matmul (np_diag (np_reciprocal1 rv)) KA) as [RA|]; cbn [bind] in *;
    [|now apply H].
  intros hR HR.
  apply wp_bind. eapply wp_for_range_st; eauto. next_store.
  destruct (for_range T (uv_step RA cA KA) (np_ones (length rv) (ncols cA)))
    as [xA|]; cbn [bind] in *; [|now apply H].
  intros hx' Hx'.
  apply wp_bind. eapply wp_reciprocal_st; [exact Hx'|]. next_store. intros hu Hu.
  apply wp_bind, wp_ret.
  apply wp_bind.
  eapply wp_matmul_st; [apply read_transpose; exact HK | exact Hu |]. next_store.
  destruct (matmul (np_transpose KA) (np_reciprocal xA)) as [t|]; cbn [bind] in *;
    [|now apply H].
  intros ht Ht.
  apply wp_bind. eapply wp_reciprocal_st; [exact Ht|]. next_store. intros htr Htr.
  apply wp_bind. eapply wp_multiply_st; [exact Hc | exact Htr |]. next_store.
  destruct (np_multiply cA (np_reciprocal t)) as [v|]; cbn [bind] in *;
    [|now apply H].
  intros hv Hv. apply wp_ret. now apply H.
Qed.

End StoreRuns.

Section StoreCalls.
Context {F : Type} {S : Scalar F}.
Variable exp : F -> F.
Variable log : F -> F.

Lemma wp_getitem_rows_st (M : handle) (I : list bool) (A : matrix F) (s : store)
      (post : option handle -> store -> Prop) :
  read s M = Some (Arr2 A) ->
  result_post s (mask_rows I A) Arr2 post ->
  wp (getitem_rows_st M I) s post.
Proof.
  intros HM H. unfold getitem_rows_st.
  apply wp_bind, (wp_load2 M A); [exact HM|].
  now apply wp_lift_alloc.
Qed.

Lemma wp_reshape_c_st (c : handle) (cv : ndarray F) (s : store)
      (post : option handle -> store -> Prop) :
  read s c = Some cv ->
  (forall h, read s h = Some (Arr2 (reshape_c cv)) -> post (Some h) s) ->
  wp (reshape_c_st c) s post.
Proof.
  intros Hc H. unfold reshape_c_st. apply wp_bind.
  unfold wp at 1, load. cbn [fst snd]. rewrite Hc.
  destruct cv as [v|A]; cbn [reshape_c].
  - apply wp_ret, H. now rewrite read_view, Hc.
  - now apply wp_ret, H.
Qed.

Lemma wp_sum_axis0_st (a : handle) (A : matrix F) (s : store)
      (post : option handle -> store -> Prop) :
  read s a = Some (Arr2 A) ->
  result_post s (Some (np_sum_axis0 A)) Arr1 post ->
  wp (sum_axis0_st a) s post.
Proof.
  intros Ha H. unfold sum_axis0_st.
  apply wp_bind, (wp_load2 a A); [exact Ha|].
  now apply wp_total_alloc.
Qed.

(** The filter and the reshape, common to the three entry points. *)
Lemma wp_preprocess (r c M K : handle) (rv : list F) (cv : ndarray F)
      (MA KA : matrix F) (s : store) {A : Type}
      (k : list bool -> handle -> handle -> handle -> handle -> St A)
      (post : option A -> store -> Prop) :
  read s r = Some (Arr1 rv) -> read s c = Some cv ->
  read s M = Some (Arr2 MA) -> read s K = Some (Arr2 KA) ->
  (forall s', extends s s' ->
      match mask_rows (np_gt0 rv) MA, mask_rows (np_gt0 rv) KA with
      | Some M', Some K' =>
          forall hr hM hK hc,
            read s' hr = Some (Arr1 (compress (np_gt0 rv) rv)) ->
            read s' hM = Some (Arr2 M') -> read s' hK = Some (Arr2 K') ->
            read s' hc = Some (Arr2 (reshape_c cv)) ->
            wp (k (np_gt0 rv) hr hM hK hc) s' post
      | _, _ => post None s'
      end) ->
  wp (I <~ gt0_st r ;;
      r' <~ getitem1_st r I ;;
      M' <~ getitem_rows_st M I ;;
      K' <~ getitem_rows_st K I ;;
      c' <~ reshape_c_st c ;;
      k I r' M' K' c') s post.
Proof.
  intros Hr Hc HM HK H. pose proof (extends_refl s) as E0.
  apply wp_bind. unfold gt0_st. apply wp_bind, (wp_load1 r rv); [exact Hr|].
  apply wp_ret.
  apply wp_bind. unfold getitem1_st. apply wp_bind, (wp_load1 r rv); [exact Hr|].
  apply wp_total_alloc. next_store. intros hr Hr'.
  apply wp_bind. eapply wp_getitem_rows_st; [exact HM|]. next_store.
  destruct (mask_rows (np_gt0 rv) MA) as [M'|]; [|now apply H].
  intros hM HM'.
  apply wp_bind. eapply wp_getitem_rows_st; [exact HK|]. next_store.
  destruct (mask_rows (np_gt0 rv) KA) as [K'|]; [|now apply H].
  intros hK HK'.
  apply wp_bind. eapply wp_reshape_c_st; [exact Hc|]. intros hc Hc'.
  now apply H.
Qed.

Lemma wp_sinkhorn_mk_st (r c M K : handle) (rv : list F) (cv : ndarray F)
      (MA KA : matrix F) (T : nat) (s : store)
      (post : option handle -> store -> Prop) :
  read s r = Some (Arr1 rv) -> read s c = Some cv ->
  read s M = Some (Arr2 MA) -> read s K = Some (Arr2 KA) ->
  result_post s (sinkhorn_mk rv cv MA KA T) Arr1 post ->
  wp (sinkhorn_mk_st r c M K T) s post.
Proof.
  intros Hr Hc HM HK H. pose proof (extends_refl s) as E0.
  unfold result_post, sinkhorn_mk_st, sinkhorn_mk in *.
  eapply (wp_preprocess r c M K rv cv MA KA s
            (fun _ r' M' K' c' =>
               uv <~ _uv_iteration_st r' c' M' K' T ;;
               KM <~ multiply_st K' M' ;;
               P <~ matmul_st KM (snd uv) ;;
               UP <~ multiply_st (fst uv) P ;;
               sum_axis0_st UP));
    [exact Hr | exact Hc | exact HM | exact HK |].
  next_store.
  destruct (mask_rows (np_gt0 rv) MA) as [M'|]; cbn [bind] in *; [|now apply H].
  destruct (mask_rows (np_gt0 rv) KA) as [K'|]; cbn [bind] in *; [|now apply H].
  intros hr hM hK hc Hr' HM' HK' Hc'.
  apply wp_bind.
  eapply (wp_uv_iteration_st hr hc hM hK _ _ M' K');
    [exact Hr' | exact Hc' | exact HK' |].
  next_store.
  destruct (_uv_iteration (compress (np_gt0 rv) rv) (reshape_c cv) M' K' T)
    as [(u, v)|]; cbn [bind] in *; [|now apply H].
  intros hu hv Hu Hv. cbn [fst snd].
  apply wp_bind. eapply wp_multiply_st; [exact HK' | exact HM' |]. next_store.
  destruct (np_multiply K' M') as [KM|]; cbn [bind] in *; [|now apply H].
  intros hKM HKM.
  apply wp_bind. eapply wp_matmul_st; [exact HKM | exact Hv |]. next_store.
  destruct (matmul KM v) as [P|]; cbn [bind] in *; [|now apply H].
  intros hP HP.
  apply wp_bind. eapply wp_multiply_st; [exact Hu | exact HP |]. next_store.
  destruct (np_multiply u P) as [UP|]; cbn [bind] in *; [|now apply H].
  intros hUP HUP.
  eapply wp_sum_axis0_st; [exact HUP|]. next_store. now apply H.
Qed.

Lemma wp_sinkhorn_st (r c M : handle) (rv : list F) (cv : ndarray F)
      (MA : matrix F) (l : F) (T : nat) (s : store)
      (post : option handle -> store -> Prop) :
  read s r = Some (Arr1 rv) -> read s c = Some cv ->
  read s M = Some (Arr2 MA) ->
  result_post s (sinkhorn exp rv cv MA l T) Arr1 post ->
  wp (sinkhorn_st exp r c M l T) s post.
Proof.
  intros Hr Hc HM H. pose proof (extends_refl s) as E0.
  unfold result_post, sinkhorn_st, sinkhorn, build_kernel in *.
  apply wp_bind. eapply wp_map_st; [exact HM|]. next_store. intros hlM HlM.
  apply wp_bind. eapply wp_map_st; [exact HlM|]. next_store. intros hK HK.
  eapply wp_sinkhorn_mk_st; [exact Hr | exact Hc | exact HM | exact HK |].
  unfold result_post. next_store.
  now apply H.
Qed.

Lemma update_app_r (n : nat) (a : ndarray F) (s0 t : store) :
  length s0 <= n -> update n a (s0 ++ t) = s0 ++ update (n - length s0) a t.
Proof.
  revert n. induction s0 as [|b s0 IH]; intros n Hn; simpl in *.
  - now rewrite Nat.sub_0_r.
  - destruct n as [|n]; [lia|]. simpl. f_equal. apply IH. lia.
Qed.

Lemma nth_error_update (n : nat) (a : ndarray F) (s : store) :
  n < length s -> nth_error (update n a s) n = Some a.
Proof.
  revert n. induction s as [|b s IH]; intros [|n] Hn; simpl in *; try lia.
  - reflexivity.
  - apply IH. lia.
Qed.

(** The write in place changes the cell of [alpha] alone: when that cell
    was allocated after [s0], every cell of [s0] is as it was. *)
Lemma wp_setitem_rows_st (alpha V : handle) (I : list bool) (A B : matrix F)
      (s0 s : store) (post : option unit -> store -> Prop) :
  extends s0 s -> length s0 <= addr alpha -> via alpha = [] ->
  read s alpha = Some (Arr2 A) -> read s V = Some (Arr2 B) ->
  match set_rows I B A with
  | Some A' => forall s', extends s0 s' -> read s' alpha = Some (Arr2 A') ->
                          post (Some tt) s'
  | None => post None s
  end ->
  wp (setitem_rows_st alpha I V) s post.
Proof.
  intros (t & ->) Hfresh Hvia Ha HV H. unfold wp, setitem_rows_st.
  unfold read in Ha. rewrite Hvia in *.
  destruct (nth_error (s0 ++ t) (addr alpha)) as [a|] eqn:Hcell; [|discriminate].
  injection Ha as ->. rewrite HV.
  destruct (set_rows I B A) as [A'|]; cbn [fst snd]; [|exact H].
  apply H.
  - rewrite update_app_r by assumption. apply extends_app.
  - unfold read. rewrite Hvia, nth_error_update; [reflexivity|].
    apply nth_error_Some. congruence.
Qed.

Lemma map_matrix_compose (f g : F -> F) (A : matrix F) :
  map_matrix g (map_matrix f A) = map_matrix (fun x => g (f x)) A.
Proof.
  unfold map_matrix. cbn [nrows ncols rows]. f_equal.
  rewrite map_map. apply map_ext. intros row. apply map_map.
Qed.

Lemma extends_length (s s' : store (F := F)) : extends s s' -> length s <= length s'.
Proof. intros (t & ->). rewrite length_app. lia. Qed.

Lemma wp_Dsinkhorn_reg_st (r c M K : handle) (rv : list F) (cv : ndarray F)
      (MA KA : matrix F) (l : F) (T : nat) (s : store)
      (post : option handle -> store -> Prop) :
  read s r = Some (Arr1 rv) -> read s c = Some cv ->
  read s M = Some (Arr2 MA) -> read s K = Some (Arr2 KA) ->
  result_post s (Dsinkhorn_reg log rv cv MA l KA T) Arr2 post ->
  wp (Dsinkhorn_reg_st log r c M l K T) s post.
Proof.
  intros Hr Hc HM HK H. pose proof (extends_refl s) as E0.
  unfold result_post, Dsinkhorn_reg_st, Dsinkhorn_reg in *.
  eapply (wp_preprocess r c M K rv cv MA KA s
            (fun I r' M' K' c' =>
               uv <~ _uv_iteration_st r' c' M' K' T ;;
               k <~ shape1_st c' ;;
               alpha <~ zeros_st (length I) k ;;
               lu <~ map_st log (fst uv) ;;
               q <~ map_st (fun x => fdiv x l) lu ;;
               _ <~ setitem_rows_st alpha I q ;;
               ret alpha));
    [exact Hr | exact Hc | exact HM | exact HK |].
  next_store.
  destruct (mask_rows (np_gt0 rv) MA) as [M'|]; cbn [bind] in *; [|now apply H].
  destruct (mask_rows (np_gt0 rv) KA) as [K'|]; cbn [bind] in *; [|now apply H].
  intros hr hM hK hc Hr' HM' HK' Hc'.
  apply wp_bind.
  eapply (wp_uv_iteration_st hr hc hM hK _ _ M' K');
    [exact Hr' | exact Hc' | exact HK' |].
  next_store.
  destruct (_uv_iteration (compress (np_gt0 rv) rv) (reshape_c cv) M' K' T)
    as [(u, v)|]; cbn [bind] in *; [|now apply H].
  intros hu hv Hu Hv. cbn [fst snd].
  apply wp_bind. unfold shape1_st.
  apply wp_bind, (wp_load2 hc (reshape_c cv)); [exact Hc'|]. apply wp_ret.
  apply wp_bind. unfold zeros_st. apply wp_alloc.
  pose proof (extends_length _ _ E0) as Hlen.
  intros s' alpha E Haddr Hvia Halpha. rewrite <- Haddr in Hlen. revert s' E Halpha.
  next_store. intros Halpha.
  apply wp_bind. eapply wp_map_st; [exact Hu|]. next_store. intros hlu Hlu.
  apply wp_bind. eapply wp_map_st; [exact Hlu|]. next_store. intros hq Hq.
  rewrite map_matrix_compose in Hq.
  apply wp_bind.
  eapply (wp_setitem_rows_st alpha hq _ _ _ s);
    [exact E0 | exact Hlen | exact Hvia | exact Halpha | exact Hq |].
  destruct (set_rows (np_gt0 rv) (map_matrix (fun x => fdiv (log x) l) u)
              (np_zeros (length (np_gt0 rv)) (ncols (reshape_c cv)))) as [G|].
  - intros s' E' HG. apply wp_ret. now apply H.
  - now apply H.
Qed.

End StoreCalls.

Section Purity.
Context {F : Type} {S : Scalar F}.

Lemma pure_call_intro (m : St handle) (s : store) (inputs : list handle)
      (value : option (ndarray F)) :
  Forall (fun h => exists a, read s h = Some a) inputs ->
  wp m s (fun o s' => extends s s' /\ bind o (read s') = value) ->
  pure_call m s inputs value.
Proof.
  unfold wp, pure_call, outcome. intros Hin (E & Hv). repeat split.
  - now apply extends_firstn.
  - eapply Forall_impl; [|exact Hin]. intros h (a & Ha).
    rewrite Ha. now apply (read_extends s).
  - exact Hv.
Qed.

Lemma result_post_pure {A : Type} (s : store) (o : option A)
      (g : A -> ndarray F) :
  result_post s o g
    (fun res s' => extends s s' /\ bind res (read s') = option_map g o).
Proof.
  unfold result_post. intros s' E. destruct o as [a|]; cbn [option_map].
  - intros h Hh. split; [exact E|]. exact Hh.
  - split; [exact E|reflexivity].
Qed.

End Purity.

(** C8. The three entry points are pure.  Over a store of arrays, with
    r, c, M, K references (or views) into it: a call leaves every array of
    the store it was given unchanged, the inputs among them, and may only
    add cells; and its outcome, the array returned or the exception, is the
    value of [sinkhorn], [sinkhorn_mk] or [Dsinkhorn_reg] on the arrays the
    inputs denote.  Hence two calls whose inputs denote the same arrays have
    the same outcome, in whatever stores they run. *)
Theorem entry_points_are_pure
        {F : Type} {S : Scalar F} (exp log : F -> F)
        (s s2 : store) (r c M K r2 c2 M2 K2 : handle)
        (rv : list F) (cv : ndarray F) (MA KA : matrix F) (l : F) (T : nat) :
  read s r = Some (Arr1 rv) -> read s c = Some cv ->
  read s M = Some (Arr2 MA) -> read s K = Some (Arr2 KA) ->
  read s2 r2 = Some (Arr1 rv) -> read s2 c2 = Some cv ->
  read s2 M2 = Some (Arr2 MA) -> read s2 K2 = Some (Arr2 KA) ->
  (pure_call (sinkhorn_st exp r c M l T) s [r; c; M]
             (option_map Arr1 (sinkhorn exp rv cv MA l T))
   /\ outcome (sinkhorn_st exp r c M l T) s
      = outcome (sinkhorn_st exp r2 c2 M2 l T) s2)
  /\ (pure_call (sinkhorn_mk_st r c M K T) s [r; c; M; K]
                (option_map Arr1 (sinkhorn_mk rv cv MA KA T))
      /\ outcome (sinkhorn_mk_st r c M K T) s
         = outcome (sinkhorn_mk_st r2 c2 M2 K2 T) s2)
  /\ (pure_call (Dsinkhorn_reg_st log r c M l K T) s [r; c; M; K]
                (option_map Arr2 (Dsinkhorn_reg log rv cv MA l KA T))
      /\ outcome (Dsinkhorn_reg_st log r c M l K T) s
         = outcome (Dsinkhorn_reg_st log r2 c2 M2 l K2 T) s2).
Proof.
  intros Hr Hc HM HK Hr2 Hc2 HM2 HK2.
  assert (H1 : forall s0 r0 c0 M0,
             read s0 r0 = Some (Arr1 rv) -> read s0 c0 = Some cv ->
             read s0 M0 = Some (Arr2 MA) ->
             pure_call (sinkhorn_st exp r0 c0 M0 l T) s0 [r0; c0; M0]
                       (option_map Arr1 (sinkhorn exp rv cv MA l T))).
  { intros s0 r0 c0 M0 H1 H2 H3. apply pure_call_intro.
    - repeat constructor; eauto.
    - apply (wp_sinkhorn_st exp r0 c0 M0 rv cv MA l T s0 _ H1 H2 H3).
      apply result_post_pure. }
  assert (H2 : forall s0 r0 c0 M0 K0,
             read s0 r0 = Some (Arr1 rv) -> read s0 c0 = Some cv ->
             read s0 M0 = Some (Arr2 MA) -> read s0 K0 = Some (Arr2 KA) ->
             pure_call (sinkhorn_mk_st r0 c0 M0 K0 T) s0 [r0; c0; M0; K0]
                       (option_map Arr1 (sinkhorn_mk rv cv MA KA T))).
  { intros s0 r0 c0 M0 K0 H H' H'' H'''. apply pure_call_intro.
    - repeat constructor; eauto.
    - apply (wp_sinkhorn_mk_st r0 c0 M0 K0 rv cv MA KA T s0 _ H H' H'' H''').
      apply result_post_pure. }
  assert (H3 : forall s0 r0 c0 M0 K0,
             read s0 r0 = Some (Arr1 rv) -> read s0 c0 = Some cv ->
             read s0 M0 = Some (Arr2 MA) -> read s0 K0 = Some (Arr2 KA) ->
             pure_call (Dsinkhorn_reg_st log r0 c0 M0 l K0 T) s0 [r0; c0; M0; K0]
                       (option_map Arr2 (Dsinkhorn_reg log rv cv MA l KA T))).
  { intros s0 r0 c0 M0 K0 H H' H'' H'''. apply pure_call_intro.
    - repeat constructor; eauto.
    - apply (wp_Dsinkhorn_reg_st log r0 c0 M0 K0 rv cv MA KA l T s0 _ H H' H'' H''').
      apply result_post_pure. }
  pose proof (H1 s r c M Hr Hc HM) as P1.
  pose proof (H1 s2 r2 c2 M2 Hr2 Hc2 HM2) as P1'.
  pose proof (H2 s r c M K Hr Hc HM HK) as P2.
  pose proof (H2 s2 r2 c2 M2 K2 Hr2 Hc2 HM2 HK2) as P2'.
  pose proof (H3 s r c M K Hr Hc HM HK) as P3.
  pose proof (H3 s2 r2 c2 M2 K2 Hr2 Hc2 HM2 HK2) as P3'.
  repeat split; try apply P1; try apply P2; try apply P3.
  - destruct P1 as (_ & _ & ->), P1' as (_ & _ & ->). reflexivity.
  - destruct P2 as (_ & _ & ->), P2' as (_ & _ & ->). reflexivity.
  - destruct P3 as (_ & _ & ->), P3' as (_ & _ & ->). reflexivity.
Qed.

Lemma entry_points_are_pure_witness :
  read Sample.heap (Handle 0 []) = Some (Arr1 Sample.r)
  /\ read Sample.heap' (Handle 3 []) = Some (Arr1 Sample.r)
  /\ pure_call (Dsinkhorn_reg_st Sample.log_stand_in
                  (Handle 0 []) (Handle 1 [AsColumn]) (Handle 2 []) 2%float
                  (Handle 3 []) 2)
               Sample.heap
               [Handle 0 []; Handle 1 [AsColumn]; Handle 2 []; Handle 3 []]
               (option_map Arr2
                  (Dsinkhorn_reg Sample.log_stand_in Sample.r
                     (Arr2 (reshape_column Sample.c_flat)) Sample.M 2%float
                     Sample.K 2)).
Proof.
  split; [reflexivity|]. split; [reflexivity|].
  exact (proj1 (proj2 (proj2
           (entry_points_are_pure
              Sample.exp_stand_in Sample.log_stand_in
              Sample.heap Sample.heap'
              (Handle 0 []) (Handle 1 [AsColumn]) (Handle 2 []) (Handle 3 [])
              (Handle 3 []) (Handle 2 []) (Handle 1 []) (Handle 0 [])
              Sample.r (Arr2 (reshape_column Sample.c_flat)) Sample.M Sample.K
              2%float 2
              eq_refl eq_refl eq_refl eq_refl
              eq_refl eq_refl eq_refl eq_refl)))).
Defined.

(** * Further properties of the code *)

(** ** Shapes of whatever is returned *)

Section EveryReturn.
Context {F : Type} {S : Scalar F}.

Lemma matmul_has_shape (A B C : matrix F) :
  matmul A B = Some C ->
  ncols A = nrows B /\ has_shape C (nrows A) (ncols B).
Proof.
  unfold matmul. destruct (Nat.eqb_spec (ncols A) (nrows B)); [|discriminate].
  intros [= <-]. split; [assumption | apply wf_tabulate].
Qed.

Lemma np_multiply_has_shape (A B C : matrix F) :
  np_multiply A B = Some C ->
  exists n k, bdim (nrows A) (nrows B) = Some n
              /\ bdim (ncols A) (ncols B) = Some k
              /\ has_shape C n k.
Proof.
  unfold np_multiply. intros H. bind_inversion H. bind_inversion H.
  injection H as <-. exists a, a0.
  split; [assumption|]. split; [assumption|]. apply wf_tabulate.
Qed.

Lemma matmul_succeeds (A B : matrix F) :
  ncols A = nrows B -> exists C, matmul A B = Some C.
Proof. intros H. unfold matmul. rewrite H, Nat.eqb_refl. eauto. Qed.

Lemma np_multiply_succeeds (A B : matrix F) (n k : nat) :
  bdim (nrows A) (nrows B) = Some n -> bdim (ncols A) (ncols B) = Some k ->
  exists C, np_multiply A B = Some C.
Proof. intros Hn Hk. unfold np_multiply. rewrite Hn, Hk. cbn [bind]. eauto. Qed.

(** What one pass of the loop needs of the shapes, and the shape it gives. *)
Lemma uv_step_inv (R c K x x' : matrix F) :
  uv_step R c K x = Some x' ->
  nrows K = nrows x
  /\ bdim (nrows c) (ncols K) = Some (ncols R)
  /\ exists b, bdim (ncols c) (ncols x) = Some b /\ has_shape x' (nrows R) b.
Proof.
  unfold uv_step. intros H. bind_inversion H. bind_inversion H.
  apply matmul_has_shape in Ha. destruct Ha as (HK & _ & Ht1 & Ht2).
  apply np_multiply_has_shape in Ha0.
  destruct Ha0 as (n & b & Hn & Hb & _ & Hy1 & Hy2).
  apply matmul_has_shape in H. destruct H as (HR & Hx').
  cbn [nrows ncols np_transpose np_reciprocal map_matrix tabulate] in *.
  rewrite Ht1 in Hn. rewrite Ht2 in Hb. rewrite Hy2 in Hx'.
  repeat split; try apply Hx'; try congruence.
  exists b. split; [exact Hb|exact Hx'].
Qed.

Lemma uv_step_succeeds (R c K x : matrix F) (b : nat) :
  nrows K = nrows x -> bdim (nrows c) (ncols K) = Some (ncols R) ->
  bdim (ncols c) (ncols x) = Some b ->
  exists x', uv_step R c K x = Some x'.
Proof.
  intros HK Hn Hb. unfold uv_step, matmul at 1.
  cbn [nrows ncols np_transpose np_reciprocal map_matrix tabulate].
  rewrite HK, Nat.eqb_refl. cbn [bind]. unfold np_multiply.
  cbn [nrows ncols np_transpose np_reciprocal map_matrix tabulate].
  rewrite Hn, Hb. cbn [bind]. apply matmul_succeeds. reflexivity.
Qed.

Lemma for_range_has_shape (R c K : matrix F) (T : nat) :
  forall x xT,
    for_range T (uv_step R c K) x = Some xT ->
    has_shape x (nrows R) (ncols c) -> has_shape xT (nrows R) (ncols c).
Proof.
  induction T as [|T IH]; intros x xT H Hx; cbn [for_range] in H.
  - now injection H as <-.
  - bind_inversion H. apply (IH a xT H).
    apply uv_step_inv in Ha. destruct Ha as (_ & _ & b & Hb & Ha).
    destruct Hx as (_ & _ & Hk). rewrite Hk, bdim_same in Hb.
    now injection Hb as <-.
Qed.

Lemma for_range_succeeds (R c K : matrix F) (T : nat) :
  nrows K = nrows R -> bdim (nrows c) (ncols K) = Some (ncols R) ->
  forall x, has_shape x (nrows R) (ncols c) ->
            exists xT, for_range T (uv_step R c K) x = Some xT.
Proof.
  intros HK Hn. induction T as [|T IH]; intros x Hx; cbn [for_range].
  - eauto.
  - destruct Hx as (Hwf & Hx1 & Hx2).
    destruct (uv_step_succeeds R c K x (ncols c)) as (x' & Hx').
    + congruence.
    + exact Hn.
    + rewrite Hx2. apply bdim_same.
    + rewrite Hx'. cbn [bind]. apply IH.
      apply uv_step_inv in Hx'. destruct Hx' as (_ & _ & b & Hb & Hx').
      rewrite Hx2, bdim_same in Hb. now injection Hb as <-.
Qed.

Lemma nrows_diag_matmul (r : list F) (K R : matrix F) :
  matmul (np_diag (np_reciprocal1 r)) K = Some R ->
  nrows K = length r /\ nrows R = length r /\ ncols R = ncols K.
Proof.
  intros H. apply matmul_has_shape in H. destruct H as (H1 & _ & H2 & H3).
  unfold np_diag, np_reciprocal1 in *.
  cbn [nrows ncols tabulate] in *. rewrite length_map in *. auto.
Qed.

Lemma np_ones_shape (n k : nat) : has_shape (np_ones (F := F) n k) n k.
Proof. apply wf_tabulate. Qed.

(** The shapes the source announces for [u] and [v] hold of every pair the
    iteration returns; for [v], once the loop has run. *)
Lemma uv_iteration_shapes (r : list F) (c M K u v : matrix F) (T : nat) :
  _uv_iteration r c M K T = Some (u, v) ->
  nrows K = length r
  /\ has_shape u (length r) (ncols c)
  /\ wf_matrix v /\ ncols v = ncols c
  /\ bdim (nrows c) (ncols K) = Some (nrows v)
  /\ (1 <= T -> nrows v = ncols K).
Proof.
  unfold _uv_iteration. intros H.
  bind_inversion H. bind_inversion H. bind_inversion H. bind_inversion H.
  injection H as <- <-.
  destruct (nrows_diag_matmul r K a Ha) as (HK & HR1 & HR2).
  assert (Hx : has_shape a0 (length r) (ncols c)).
  { rewrite <- HR1. apply (for_range_has_shape a c K T _ a0 Ha0).
    rewrite HR1. apply np_ones_shape. }
  assert (Hu : has_shape (np_reciprocal a0) (length r) (ncols c))
    by now apply map_matrix_shape.
  apply matmul_has_shape in Ha1. destruct Ha1 as (_ & _ & Ht1 & Ht2).
  apply np_multiply_has_shape in Ha2.
  destruct Ha2 as (n & b & Hn & Hb & Hwf & Hv1 & Hv2).
  cbn [nrows ncols np_transpose np_reciprocal map_matrix tabulate] in *.
  rewrite Ht1 in Hn. rewrite Ht2 in Hb.
  destruct Hx as (_ & _ & Hxk). rewrite Hxk, bdim_same in Hb.
  injection Hb as <-.
  repeat split; try apply Hu; try apply Hwf; try congruence.
  intros HT. destruct T as [|T]; [lia|]. cbn [for_range] in Ha0.
  apply bind_inv in Ha0. destruct Ha0 as (x1 & Hstep & _).
  apply uv_step_inv in Hstep. destruct Hstep as (_ & Hn' & _). congruence.
Qed.

End EveryReturn.

(** ** Raising does not depend on the iteration count *)

Section IterationCount.
Context {F : Type} {S : Scalar F}.

(** The iteration with at least one pass returns exactly when [R] can be
    formed and the first pass goes through. *)
Lemma uv_iteration_succeeds_iff (r : list F) (c M K : matrix F) (T : nat) :
  (exists uv, _uv_iteration r c M K (Datatypes.S T) = Some uv)
  <-> (exists R x1,
          matmul (np_diag (np_reciprocal1 r)) K = Some R
          /\ uv_step R c K (np_ones (length r) (ncols c)) = Some x1).
Proof.
  split.
  - intros (uv & H). unfold _uv_iteration in H.
    apply bind_inv in H. destruct H as (R & HR & H).
    apply bind_inv in H. destruct H as (xT & HxT & _).
    cbn [for_range] in HxT.
    apply bind_inv in HxT. destruct HxT as (x1 & Hx1 & _). eauto.
  - intros (R & x1 & HR & Hx1). unfold _uv_iteration. rewrite HR. cbn [bind].
    destruct (nrows_diag_matmul r K R HR) as (HK & HR1 & HR2).
    pose proof (uv_step_inv R c K _ x1 Hx1) as (_ & Hn & _).
    destruct (for_range_succeeds R c K (Datatypes.S T)) with
      (x := np_ones (F := F) (length r) (ncols c)) as (xT & HxT).
    + congruence.
    + exact Hn.
    + rewrite HR1. apply np_ones_shape.
    + rewrite HxT. cbn [bind].
      apply for_range_has_shape in HxT; [|rewrite HR1; apply np_ones_shape].
      destruct HxT as (_ & Hx1' & Hx2').
      unfold matmul.
      cbn [nrows ncols np_transpose np_reciprocal map_matrix tabulate].
      replace (nrows K =? nrows xT) with true
        by (symmetry; apply Nat.eqb_eq; congruence).
      cbn [bind]. unfold np_multiply.
      cbn [nrows ncols np_transpose np_reciprocal map_matrix tabulate].
      rewrite Hn, Hx2', bdim_same. cbn [bind]. eauto.
Qed.

Lemma uv_iteration_count_irrelevant (r : list F) (c M K : matrix F) (T T' : nat) :
  1 <= T -> 1 <= T' ->
  _uv_iteration r c M K T = None -> _uv_iteration r c M K T' = None.
Proof.
  intros HT HT' H.
  destruct T as [|T]; [lia|]. destruct T' as [|T']; [lia|].
  destruct (_uv_iteration r c M K (Datatypes.S T')) as [uv|] eqn:H'; [|reflexivity].
  assert (Hex : exists uv, _uv_iteration r c M K (Datatypes.S T) = Some uv).
  { apply uv_iteration_succeeds_iff.
    apply (uv_iteration_succeeds_iff r c M K T'). eauto. }
  destruct Hex as (uv' & Huv'). congruence.
Qed.

(** The readout of the divergence raises or not by the shapes of [u], [v]. *)
Lemma readout_raises_by_shape (K M u v u' v' : matrix F) :
  nrows u = nrows u' -> ncols u = ncols u' ->
  nrows v = nrows v' -> ncols v = ncols v' ->
  (KM <- np_multiply K M ;; P <- matmul KM v ;; UP <- np_multiply u P ;;
   Some (np_sum_axis0 UP)) = None ->
  (KM <- np_multiply K M ;; P <- matmul KM v' ;; UP <- np_multiply u' P ;;
   Some (np_sum_axis0 UP)) = None.
Proof.
  intros Hu1 Hu2 Hv1 Hv2.
  destruct (np_multiply K M) as [KM|]; [|reflexivity]. cbn [bind].
  unfold matmul. rewrite <- Hv1, <- Hv2.
  destruct (ncols KM =? nrows v); [|reflexivity]. cbn [bind].
  unfold np_multiply. cbn [nrows ncols tabulate]. rewrite <- Hu1, <- Hu2.
  destruct (bdim (nrows u) (nrows KM)); [|reflexivity]. cbn [bind].
  destruct (bdim (ncols u) (ncols v)); [|reflexivity]. cbn [bind].
  discriminate.
Qed.

Lemma set_rows_raises_by_shape (I : list bool) (V V' alpha : matrix F) :
  nrows V = nrows V' -> ncols V = ncols V' ->
  set_rows I V alpha = None -> set_rows I V' alpha = None.
Proof.
  intros H1 H2. unfold set_rows. rewrite <- H1, <- H2.
  now destruct (_ && _ && _).
Qed.

Lemma sinkhorn_mk_count_irrelevant (r : list F) (c : ndarray F) (M K : matrix F)
      (T T' : nat) :
  1 <= T -> 1 <= T' ->
  sinkhorn_mk r c M K T = None -> sinkhorn_mk r c M K T' = None.
Proof.
  intros HT HT'. unfold sinkhorn_mk.
  destruct (mask_rows (np_gt0 r) M) as [M'|]; [|reflexivity].
  destruct (mask_rows (np_gt0 r) K) as [K'|]; [|reflexivity].
  cbn [bind].
  destruct (_uv_iteration (compress (np_gt0 r) r) (reshape_c c) M' K' T)
    as [(u, v)|] eqn:Huv.
  - destruct (_uv_iteration (compress (np_gt0 r) r) (reshape_c c) M' K' T')
      as [(u', v')|] eqn:Huv'; [|reflexivity].
    cbn [bind].
    apply uv_iteration_shapes in Huv, Huv'.
    destruct Huv as (_ & (_ & Hu1 & Hu2) & _ & Hv2 & _ & Hv1).
    destruct Huv' as (_ & (_ & Hu1' & Hu2') & _ & Hv2' & _ & Hv1').
    specialize (Hv1 HT). specialize (Hv1' HT').
    apply readout_raises_by_shape; congruence.
  - intros _.
    now rewrite (uv_iteration_count_irrelevant _ _ _ _ T T' HT HT' Huv).
Qed.

Lemma Dsinkhorn_reg_count_irrelevant (log : F -> F) (r : list F) (c : ndarray F)
      (M : matrix F) (l : F) (K : matrix F) (T T' : nat) :
  1 <= T -> 1 <= T' ->
  Dsinkhorn_reg log r c M l K T = None -> Dsinkhorn_reg log r c M l K T' = None.
Proof.
  intros HT HT'. unfold Dsinkhorn_reg.
  destruct (mask_rows (np_gt0 r) M) as [M'|]; [|reflexivity].
  destruct (mask_rows (np_gt0 r) K) as [K'|]; [|reflexivity].
  cbn [bind].
  destruct (_uv_iteration (compress (np_gt0 r) r) (reshape_c c) M' K' T)
    as [(u, v)|] eqn:Huv.
  - destruct (_uv_iteration (compress (np_gt0 r) r) (reshape_c c) M' K' T')
      as [(u', v')|] eqn:Huv'; [|reflexivity].
    cbn [bind].
    apply uv_iteration_shapes in Huv, Huv'.
    destruct Huv as (_ & (_ & Hu1 & Hu2) & _).
    destruct Huv' as (_ & (_ & Hu1' & Hu2') & _).
    apply set_rows_raises_by_shape; cbn [nrows ncols map_matrix]; congruence.
  - intros _.
    now rewrite (uv_iteration_count_irrelevant _ _ _ _ T T' HT HT' Huv).
Qed.

End IterationCount.

(** ** The gradient of every reference vector *)

Section GradientRows.
Context {F : Type} {S : Scalar F}.
Variable log : F -> F.

Lemma compress_scatter_rows (I : list bool) :
  forall V old : list (list F),
    length I = length old -> length (filter (fun b => b) I) = length V ->
    compress I (scatter_rows I V old) = V.
Proof.
  induction I as [|b I IH]; intros V [|o old] Hold HV; simpl in *;
    try discriminate.
  - now destruct V.
  - destruct b; simpl in HV.
    + destruct V as [|v V]; [discriminate|]. simpl in *. f_equal.
      apply IH; lia.
    + apply IH; lia.
Qed.

Lemma nth_np_gt0 (r : list F) (i : nat) :
  i < length r -> nth i (np_gt0 r) false = flt fzero (nth i r fzero).
Proof. intros Hi. unfold np_gt0. now apply nth_map_lt. Qed.

(** What a returned gradient is made of. *)
Lemma Dsinkhorn_reg_inv (r : list F) (c : ndarray F) (M : matrix F) (l : F)
      (K G : matrix F) (T : nat) :
  Dsinkhorn_reg log r c M l K T = Some G ->
  let I := np_gt0 r in
  exists M' K' u v,
    mask_rows I M = Some M' /\ mask_rows I K = Some K'
    /\ _uv_iteration (compress I r) (reshape_c c) M' K' T = Some (u, v)
    /\ has_shape u (length (filter (fun b => b) I)) (measures c)
    /\ G = Mat (length r) (measures c)
             (scatter_rows I (rows (map_matrix (fun x => fdiv (log x) l) u))
                           (rows (np_zeros (length r) (measures c)))).
Proof.
  intros H I. unfold Dsinkhorn_reg in H. fold I in H.
  apply bind_inv in H. destruct H as (M' & HM' & H).
  apply bind_inv in H. destruct H as (K' & HK' & H).
  apply bind_inv in H. destruct H as ((u, v) & Huv & H).
  cbn zeta in H. rewrite ncols_reshape_c in H.
  pose proof (uv_iteration_shapes _ _ _ _ _ _ _ Huv) as (_ & Hu & _).
  rewrite ncols_reshape_c in Hu. unfold I in Hu at 1.
  rewrite length_compress_np_gt0 in Hu. fold I in Hu.
  exists M', K', u, v. repeat split; try assumption; try apply Hu.
  unfold set_rows in H. destruct (_ && _ && _); [|discriminate].
  injection H as <-. cbn [nrows ncols np_zeros tabulate].
  unfold I. now rewrite length_np_gt0.
Qed.




End GradientRows.

(** ** Locations of no weight *)

Section Insertion.
Context {F : Type} {S : Scalar F}.









Lemma rows_np_zeros (n k : nat) :
  rows (np_zeros (F := F) n k) = repeat (repeat fzero k) n.
Proof.
  unfold np_zeros, tabulate. cbn [rows].
  rewrite (map_ext _ (fun _ => repeat fzero k))
    by (intros; apply map_const_seq).
  apply map_const_seq.
Qed.



End Insertion.

(** ** Targets given as a single row *)

Section OneRow.
Context {F : Type} {S : Scalar F}.

Lemma nth_repeat_lt {A : Type} (a d : A) (m i : nat) :
  i < m -> nth i (repeat a m) d = a.
Proof.
  revert i. induction m as [|m IH]; intros [|i] H; simpl; try lia; auto.
  apply IH. lia.
Qed.

Lemma bdim_one (m : nat) : bdim 1 m = Some m.
Proof.
  unfold bdim. destruct (Nat.eqb_spec 1 m); [congruence|reflexivity].
Qed.

(** Against an array of [m] rows, a one-row array is broadcast: the product
    is that of its row repeated [m] times. *)
Lemma np_multiply_repeat_rows (c B : matrix F) (m : nat) :
  nrows c = 1 -> nrows B = m ->
  np_multiply c B = np_multiply (repeat_rows m c) B.
Proof.
  intros Hc HB. unfold np_multiply, repeat_rows. cbn [nrows ncols rows].
  rewrite Hc, HB, bdim_one, bdim_same. cbn [bind].
  destruct (bdim (ncols c) (ncols B)) as [k|]; [|reflexivity]. cbn [bind].
  f_equal. apply tabulate_ext. intros i j Hi Hj. f_equal.
  rewrite (bidx_lt m i Hi). change (bidx 1 i) with 0.
  unfold entry. cbn [rows]. now rewrite nth_repeat_lt.
Qed.

Lemma for_range_ext (f g : matrix F -> option (matrix F)) (T : nat) :
  (forall x, f x = g x) -> forall x, for_range T f x = for_range T g x.
Proof.
  intros H. induction T as [|T IH]; intros x; cbn [for_range]; [reflexivity|].
  rewrite H. destruct (g x); cbn [bind]; auto.
Qed.

Lemma uv_step_repeat_rows (R c K x : matrix F) :
  nrows c = 1 ->
  uv_step R c K x = uv_step R (repeat_rows (ncols K) c) K x.
Proof.
  intros Hc. unfold uv_step.
  destruct (matmul (np_transpose K) (np_reciprocal x)) as [t|] eqn:Ht;
    [|reflexivity].
  cbn [bind]. apply matmul_has_shape in Ht. destruct Ht as (_ & _ & Ht & _).
  now rewrite (np_multiply_repeat_rows c (np_reciprocal t) (ncols K)).
Qed.

Lemma uv_iteration_repeat_rows (r : list F) (c M K : matrix F) (T : nat) :
  nrows c = 1 ->
  _uv_iteration r c M K T = _uv_iteration r (repeat_rows (ncols K) c) M K T.
Proof.
  intros Hc. unfold _uv_iteration.
  destruct (matmul (np_diag (np_reciprocal1 r)) K) as [R|]; [|reflexivity].
  cbn [bind]. cbn [ncols repeat_rows].
  rewrite (for_range_ext _ _ T (fun x => uv_step_repeat_rows R c K x Hc)).
  destruct (for_range T _ _) as [x|]; [|reflexivity]. cbn [bind].
  destruct (matmul (np_transpose K) (np_reciprocal x)) as [t|] eqn:Ht;
    [|reflexivity].
  cbn [bind]. apply matmul_has_shape in Ht. destruct Ht as (_ & _ & Ht & _).
  now rewrite (np_multiply_repeat_rows c (np_reciprocal t) (ncols K)).
Qed.

Lemma ncols_mask_rows (I : list bool) (A A' : matrix F) :
  mask_rows I A = Some A' -> ncols A' = ncols A.
Proof.
  unfold mask_rows. destruct (_ =? _); [|discriminate]. now intros [= <-].
Qed.

End OneRow.

(** ** What makes the entry points raise *)

Section Raising.
Context {F : Type} {S : Scalar F}.





(** Where the divergence returns, the gradient returns. *)
Lemma Dsinkhorn_reg_returns_with_sinkhorn_mk (log : F -> F) (r : list F)
      (c : ndarray F) (M K : matrix F) (l : F) (T : nat) (d : list F) :
  sinkhorn_mk r c M K T = Some d ->
  exists G, Dsinkhorn_reg log r c M l K T = Some G.
Proof.
  unfold sinkhorn_mk, Dsinkhorn_reg. intros H.
  apply bind_inv in H. destruct H as (M' & -> & H).
  apply bind_inv in H. destruct H as (K' & -> & H).
  apply bind_inv in H. destruct H as ((u, v) & Huv & _).
  cbn [bind]. rewrite Huv. cbn [bind].
  apply uv_iteration_shapes in Huv. destruct Huv as (_ & (_ & Hu1 & Hu2) & _).
  unfold set_rows. cbn [nrows ncols np_zeros tabulate map_matrix].
  rewrite Hu1, Hu2, length_compress_np_gt0, !Nat.eqb_refl. cbn [andb]. eauto.
Qed.

End Raising.

(** ** The store, whatever the references denote *)

Section Frames.
Context {F : Type} {S : Scalar F}.
Variable s0 : store (F := F).

Lemma frame_weaken {A : Type} (P Q : A -> Prop) (m : St A) :
  (forall a, P a -> Q a) -> frame s0 P m -> frame s0 Q m.
Proof.
  intros HPQ Hm s E. destruct (Hm s E) as (E' & HP). split; auto.
Qed.

Lemma frame_ret {A : Type} (P : A -> Prop) (a : A) : P a -> frame s0 P (ret a).
Proof. intros HP s E. split; [exact E|]. now intros a' [= <-]. Qed.

Lemma frame_raise {A : Type} (P : A -> Prop) : frame s0 P raise.
Proof. intros s E. split; [exact E|]. discriminate. Qed.

Lemma frame_lift {A : Type} (o : option A) : frame s0 (fun _ => True) (lift o).
Proof. destruct o; [now apply frame_ret | apply frame_raise]. Qed.

Lemma frame_bind {A B : Type} (P : A -> Prop) (Q : B -> Prop)
      (m : St A) (f : A -> St B) :
  frame s0 P m -> (forall a, P a -> frame s0 Q (f a)) ->
  frame s0 Q (bindS m f).
Proof.
  intros Hm Hf s E. unfold bindS. destruct (Hm s E) as (E' & HP).
  destruct (m s) as ([a|], s'); cbn [fst snd] in *.
  - apply (Hf a (HP a eq_refl) s' E').
  - split; [exact E'|]. discriminate.
Qed.

Lemma frame_load (h : handle) : frame s0 (fun _ => True) (load h).
Proof. intros s E. split; [exact E|]. auto. Qed.

Lemma frame_load1 (h : handle) : frame s0 (fun _ => True) (load1 h).
Proof.
  unfold load1. eapply frame_bind; [apply frame_load|].
  intros [v|A] _; [now apply frame_ret | apply frame_raise].
Qed.

Lemma frame_load2 (h : handle) : frame s0 (fun _ => True) (load2 h).
Proof.
  unfold load2. eapply frame_bind; [apply frame_load|].
  intros [v|A] _; [apply frame_raise | now apply frame_ret].
Qed.

(** An allocation returns a handle on a cell the initial store lacks. *)
Lemma frame_alloc (a : ndarray F) : frame s0 (fresh_for s0) (alloc a).
Proof.
  intros s E. unfold alloc. cbn [fst snd]. split.
  - apply (extends_trans s0 s); [exact E | apply extends_app].
  - intros h [= <-]. split; [|reflexivity]. cbn [addr].
    now apply extends_length.
Qed.

(** The write in place, into a cell the initial store lacks. *)
Lemma frame_setitem_rows_st (alpha V : handle) (I : list bool) :
  fresh_for s0 alpha ->
  frame s0 (fun _ => True) (setitem_rows_st alpha I V).
Proof.
  intros (Hfresh & Hvia) s E. unfold setitem_rows_st. rewrite Hvia.
  split; [|auto].
  destruct (nth_error s (addr alpha)) as [[v|A]|]; try exact E.
  destruct (read s V) as [[v|B]|]; try exact E.
  destruct (set_rows I B A) as [A'|]; cbn [snd]; [|exact E].
  destruct E as (t & ->). rewrite update_app_r by assumption.
  apply extends_app.
Qed.

Ltac frame_reads :=
  repeat first
    [ (eapply frame_bind; [apply frame_load1 | intros ? _])
    | (eapply frame_bind; [apply frame_load2 | intros ? _])
    | (eapply frame_bind; [apply frame_lift | intros ? _]) ].

Lemma frame_matmul_st (a b : handle) : frame s0 (fresh_for s0) (matmul_st a b).
Proof. unfold matmul_st. frame_reads. apply frame_alloc. Qed.

Lemma frame_multiply_st (a b : handle) :
  frame s0 (fresh_for s0) (multiply_st a b).
Proof. unfold multiply_st. frame_reads. apply frame_alloc. Qed.

Lemma frame_map_st (f : F -> F) (a : handle) :
  frame s0 (fresh_for s0) (map_st f a).
Proof. unfold map_st. frame_reads. apply frame_alloc. Qed.

Lemma frame_getitem_rows_st (M : handle) (I : list bool) :
  frame s0 (fresh_for s0) (getitem_rows_st M I).
Proof. unfold getitem_rows_st. frame_reads. apply frame_alloc. Qed.

Lemma frame_sum_axis0_st (a : handle) :
  frame s0 (fresh_for s0) (sum_axis0_st a).
Proof. unfold sum_axis0_st. frame_reads. apply frame_alloc. Qed.

Lemma frame_any {A : Type} (P : A -> Prop) (m : St A) :
  frame s0 P m -> frame s0 (fun _ => True) m.
Proof. apply frame_weaken. auto. Qed.

Ltac frame_next lem x :=
  eapply frame_bind; [eapply frame_any, lem | intros x _].

Ltac frame_value x :=
  eapply (frame_bind (fun _ => True));
  [frame_reads; now apply frame_ret | intros x _].

Lemma frame_uv_step_st (R c K x : handle) :
  frame s0 (fun _ => True) (uv_step_st R c K x).
Proof.
  unfold uv_step_st, transpose_st, reciprocal_st.
  frame_value Kt.
  frame_next (frame_map_st recip x) xr.
  frame_next (frame_matmul_st Kt xr) t.
  frame_next (frame_map_st recip t) tr.
  frame_next (frame_multiply_st c tr) y.
  eapply frame_any, frame_matmul_st.
Qed.

Lemma frame_for_range_st (R c K : handle) (T : nat) :
  forall x, frame s0 (fun _ => True) (for_range_st T (uv_step_st R c K) x).
Proof.
  induction T as [|T IH]; intros x; cbn [for_range_st].
  - now apply frame_ret.
  - eapply frame_bind; [apply frame_uv_step_st | intros x' _; apply IH].
Qed.

Lemma frame_uv_iteration_st (r c M K : handle) (T : nat) :
  frame s0 (fun _ => True) (_uv_iteration_st r c M K T).
Proof.
  unfold _uv_iteration_st, len_st, shape1_st, ones_st, reciprocal1_st, diag_st,
    transpose_st, reciprocal_st.
  frame_value n.
  frame_value k.
  frame_next (frame_alloc (Arr2 (np_ones n k))) x.
  eapply (frame_bind (fun _ => True)); [|intros rr _].
  { frame_reads. eapply frame_any, frame_alloc. }
  eapply (frame_bind (fun _ => True)); [|intros D _].
  { frame_reads. eapply frame_any, frame_alloc. }
  frame_next (frame_matmul_st D K) R.
  eapply frame_bind; [apply frame_for_range_st | intros xT _].
  frame_next (frame_map_st recip xT) u.
  frame_value Kt.
  frame_next (frame_matmul_st Kt u) t.
  frame_next (frame_map_st recip t) tr.
  frame_next (frame_multiply_st c tr) v.
  now apply frame_ret.
Qed.

Lemma frame_reshape_c_st (c : handle) :
  frame s0 (fun _ => True) (reshape_c_st c).
Proof.
  unfold reshape_c_st, reshape_column_st.
  eapply frame_bind; [apply frame_load|].
  intros [v|A] _; now apply frame_ret.
Qed.

Lemma frame_sinkhorn_mk_st (r c M K : handle) (T : nat) :
  frame s0 (fresh_for s0) (sinkhorn_mk_st r c M K T).
Proof.
  unfold sinkhorn_mk_st, gt0_st, getitem1_st.
  frame_value mask.
  eapply (frame_bind (fun _ => True)); [|intros r' _].
  { frame_reads. eapply frame_any, frame_alloc. }
  frame_next (frame_getitem_rows_st M mask) M'.
  frame_next (frame_getitem_rows_st K mask) K'.
  eapply frame_bind; [apply frame_reshape_c_st | intros c' _].
  eapply frame_bind; [apply frame_uv_iteration_st | intros uv _].
  frame_next (frame_multiply_st K' M') KM.
  frame_next (frame_matmul_st KM (snd uv)) P.
  frame_next (frame_multiply_st (fst uv) P) UP.
  apply frame_sum_axis0_st.
Qed.

Lemma frame_sinkhorn_st (exp : F -> F) (r c M : handle) (l : F) (T : nat) :
  frame s0 (fresh_for s0) (sinkhorn_st exp r c M l T).
Proof.
  unfold sinkhorn_st.
  frame_next (frame_map_st (fun x => fmul (fneg l) x) M) lM.
  frame_next (frame_map_st exp lM) K.
  apply frame_sinkhorn_mk_st.
Qed.

Lemma frame_Dsinkhorn_reg_st (log : F -> F) (r c M : handle) (l : F)
      (K : handle) (T : nat) :
  frame s0 (fresh_for s0) (Dsinkhorn_reg_st log r c M l K T).
Proof.
  unfold Dsinkhorn_reg_st, gt0_st, getitem1_st, shape1_st, zeros_st.
  frame_value mask.
  eapply (frame_bind (fun _ => True)); [|intros r' _].
  { frame_reads. eapply frame_any, frame_alloc. }
  frame_next (frame_getitem_rows_st M mask) M'.
  frame_next (frame_getitem_rows_st K mask) K'.
  eapply frame_bind; [apply frame_reshape_c_st | intros c' _].
  eapply frame_bind; [apply frame_uv_iteration_st | intros uv _].
  frame_value k.
  eapply frame_bind; [apply frame_alloc | intros alpha Halpha].
  frame_next (frame_map_st log (fst uv)) lu.
  frame_next (frame_map_st (fun x => fdiv x l) lu) q.
  eapply frame_bind;
    [apply (frame_setitem_rows_st alpha q mask Halpha) | intros _ _].
  now apply frame_ret.
Qed.

End Frames.

(** * Further properties: statements *)

(** X1. Whenever [_uv_iteration] returns a pair (u, v), u is a well-formed
    (n x k) array, n the length of r and k the number of columns of c,
    whatever the iteration count; v is well formed with k columns, and is
    (m x k), m the number of columns of K, once the loop has run (T >= 1).
    These are the shapes the source announces for u and v. *)
Theorem uv_iteration_returns_announced_shapes
        {F : Type} {S : Scalar F}
        (r : list F) (c M K u v : matrix F) (T : nat) :
  _uv_iteration r c M K T = Some (u, v) ->
  has_shape u (length r) (ncols c)
  /\ wf_matrix v /\ ncols v = ncols c
  /\ (1 <= T -> has_shape v (ncols K) (ncols c)).
Proof.
  intros H. apply uv_iteration_shapes in H.
  destruct H as (_ & Hu & Hwf & Hk & _ & Hm).
  repeat split; try apply Hu; try apply Hwf; auto.
Qed.

Lemma uv_iteration_returns_announced_shapes_witness :
  exists u v,
    _uv_iteration Sample2.r2 Sample.c Sample2.M2 Sample2.K2 3 = Some (u, v)
    /\ has_shape u 2 2 /\ has_shape v 2 2.
Proof.
  destruct (_uv_iteration Sample2.r2 Sample.c Sample2.M2 Sample2.K2 3)
    as [(u, v)|] eqn:H.
  - exists u, v. split; [reflexivity|].
    destruct (uv_iteration_returns_announced_shapes _ _ _ _ _ _ _ H)
      as (Hu & _ & _ & Hv).
    split; [exact Hu | apply Hv; lia].
  - vm_compute in H. discriminate H.
Defined.

(** With no iteration the loop's own shape check is skipped: a kernel of one
    column against two target locations is accepted for T = 0 and refused
    for T = 1. *)
Example zero_iterations_check_less :
  sinkhorn_mk Sample.r (Arr2 Sample.c) Sample.M Sample2.K_one_column 0 <> None
  /\ sinkhorn_mk Sample.r (Arr2 Sample.c) Sample.M Sample2.K_one_column 1 = None.
Proof. split; [vm_compute; discriminate | reflexivity]. Qed.

(** X2. Whether an entry point raises does not depend on the iteration
    count, as long as there is at least one iteration: for T, T' >= 1,
    [sinkhorn_mk], [sinkhorn] and [Dsinkhorn_reg] raise with T iterations
    exactly when they raise with T'.  Every shape check is met in the first
    pass of the loop, and a pass gives x the shape it had. *)
Theorem raising_is_independent_of_iterations
        {F : Type} {S : Scalar F} (exp log : F -> F)
        (r : list F) (c : ndarray F) (M K : matrix F) (l : F) (T T' : nat) :
  1 <= T -> 1 <= T' ->
  (sinkhorn_mk r c M K T = None <-> sinkhorn_mk r c M K T' = None)
  /\ (sinkhorn exp r c M l T = None <-> sinkhorn exp r c M l T' = None)
  /\ (Dsinkhorn_reg log r c M l K T = None
      <-> Dsinkhorn_reg log r c M l K T' = None).
Proof.
  intros HT HT'. unfold sinkhorn. cbn zeta.
  repeat split; intros H;
    first [ now apply (sinkhorn_mk_count_irrelevant _ _ _ _ T T')
          | now apply (sinkhorn_mk_count_irrelevant _ _ _ _ T' T)
          | now apply (Dsinkhorn_reg_count_irrelevant _ _ _ _ _ _ T T')
          | now apply (Dsinkhorn_reg_count_irrelevant _ _ _ _ _ _ T' T) ].
Qed.

Lemma raising_is_independent_of_iterations_witness :
  1 <= 1 /\ 1 <= 20
  /\ (sinkhorn_mk Sample.r (Arr2 Sample.c) Sample.M Sample2.K_one_column 1 = None
      <-> sinkhorn_mk Sample.r (Arr2 Sample.c) Sample.M Sample2.K_one_column 20
          = None).
Proof.
  assert (H1 : 1 <= 1) by lia. assert (H20 : 1 <= 20) by lia.
  split; [exact H1|]. split; [exact H20|].
  exact (proj1 (raising_is_independent_of_iterations
                  Sample.exp_stand_in Sample.log_stand_in
                  Sample.r (Arr2 Sample.c) Sample.M Sample2.K_one_column
                  2%float 1 20 H1 H20)).
Defined.

(** X3. For every reference vector, whatever the signs of its entries and
    whatever shapes the call accepted: a gradient that is returned is a
    well-formed (n x k) table, n the length of r; row i is all zeros
    whenever r[i] > 0 is false (r[i] zero, negative or NaN), and otherwise
    is the row of log(u) / l that the mask assigns to i. *)
Theorem gradient_rows_of_any_reference
        {F : Type} {S : Scalar F} (log : F -> F)
        (r : list F) (c : ndarray F) (M : matrix F) (l : F) (K G : matrix F)
        (T : nat) :
  Dsinkhorn_reg log r c M l K T = Some G ->
  has_shape G (length r) (measures c)
  /\ exists M' K' u v,
       mask_rows (np_gt0 r) M = Some M' /\ mask_rows (np_gt0 r) K = Some K'
       /\ _uv_iteration (compress (np_gt0 r) r) (reshape_c c) M' K' T = Some (u, v)
       /\ forall i, i < length r ->
            (flt fzero (nth i r fzero) = false ->
             nth i (rows G) [] = repeat fzero (measures c))
            /\ (flt fzero (nth i r fzero) = true ->
                nth i (rows G) []
                = map (fun x => fdiv (log x) l)
                      (nth (rank (np_gt0 r) i) (rows u) [])).
Proof.
  intros H. destruct (Dsinkhorn_reg_inv log r c M l K G T H)
    as (M' & K' & u & v & HM' & HK' & Huv & Hu & ->).
  assert (HV : has_shape (map_matrix (fun x => fdiv (log x) l) u)
                         (length (filter (fun b => b) (np_gt0 r))) (measures c))
    by now apply map_matrix_shape.
  destruct HV as ((HV1 & HV2) & HV3 & HV4).
  destruct (wf_tabulate (length r) (measures c) (fun _ _ => (fzero : F)))
    as ((HZ1 & HZ2) & _).
  split.
  - unfold has_shape, wf_matrix. cbn [nrows ncols rows]. repeat split.
    + rewrite length_scatter_rows. exact HZ1.
    + apply scatter_rows_Forall.
      * now rewrite HV4 in HV2.
      * exact HZ2.
  - exists M', K', u, v. repeat split; try assumption.
    + intros Hneg. cbn [rows].
      rewrite scatter_rows_nth.
      * rewrite nth_np_gt0, Hneg by assumption.
        now apply rows_np_zeros_nth.
      * rewrite length_np_gt0. symmetry. exact HZ1.
      * congruence.
      * now rewrite length_np_gt0.
    + intros Hpos. cbn [rows].
      rewrite scatter_rows_nth.
      * rewrite nth_np_gt0, Hpos by assumption.
        cbn [map_matrix rows].
        apply (nth_map_lt (map (fun x => fdiv (log x) l))).
        destruct Hu as ((Hu1 & _) & Hu2 & _). rewrite Hu1, Hu2.
        apply rank_lt. now rewrite nth_np_gt0.
      * rewrite length_np_gt0. symmetry. exact HZ1.
      * congruence.
      * now rewrite length_np_gt0.
Qed.

Lemma gradient_rows_of_any_reference_witness :
  exists G,
    Dsinkhorn_reg Sample.log_stand_in Sample2.r_signed (Arr2 Sample.c) Sample.M
                  2%float Sample.K 2 = Some G
    /\ has_shape G 3 2.
Proof.
  destruct (Dsinkhorn_reg Sample.log_stand_in Sample2.r_signed (Arr2 Sample.c)
              Sample.M 2%float Sample.K 2) as [G|] eqn:H.
  - exists G. split; [reflexivity|].
    exact (proj1 (gradient_rows_of_any_reference _ _ _ _ _ _ _ _ H)).
  - vm_compute in H. discriminate H.
Defined.

(** X4. Reading back what was written: selecting from a returned gradient
    the rows where r > 0 gives exactly the table log(u) / l of the
    iteration. *)
Theorem gradient_masked_is_log_u
        {F : Type} {S : Scalar F} (log : F -> F)
        (r : list F) (c : ndarray F) (M : matrix F) (l : F) (K G : matrix F)
        (T : nat) :
  Dsinkhorn_reg log r c M l K T = Some G ->
  exists M' K' u v,
    mask_rows (np_gt0 r) M = Some M' /\ mask_rows (np_gt0 r) K = Some K'
    /\ _uv_iteration (compress (np_gt0 r) r) (reshape_c c) M' K' T = Some (u, v)
    /\ mask_rows (np_gt0 r) G = Some (map_matrix (fun x => fdiv (log x) l) u).
Proof.
  intros H. destruct (Dsinkhorn_reg_inv log r c M l K G T H)
    as (M' & K' & u & v & HM' & HK' & Huv & Hu & ->).
  exists M', K', u, v. repeat split; try assumption.
  assert (HV : has_shape (map_matrix (fun x => fdiv (log x) l) u)
                         (length (filter (fun b => b) (np_gt0 r))) (measures c))
    by now apply map_matrix_shape.
  destruct HV as ((HV1 & _) & HV3 & HV4).
  unfold mask_rows. cbn [nrows ncols rows].
  rewrite length_np_gt0, Nat.eqb_refl.
  rewrite compress_scatter_rows.
  - f_equal. destruct (map_matrix (fun x => fdiv (log x) l) u) as [n k rs].
    cbn [nrows ncols rows] in *. congruence.
  - rewrite rows_np_zeros, repeat_length. apply length_np_gt0.
  - congruence.
Qed.

Lemma gradient_masked_is_log_u_witness :
  exists G V,
    Dsinkhorn_reg Sample.log_stand_in Sample2.r_signed (Arr2 Sample.c) Sample.M
                  2%float Sample.K 2 = Some G
    /\ mask_rows (np_gt0 Sample2.r_signed) G = Some V.
Proof.
  destruct (Dsinkhorn_reg Sample.log_stand_in Sample2.r_signed (Arr2 Sample.c)
              Sample.M 2%float Sample.K 2) as [G|] eqn:H.
  - destruct (gradient_masked_is_log_u _ _ _ _ _ _ _ _ H)
      as (M' & K' & u & v & _ & _ & _ & HG).
    exists G. eexists. split; [reflexivity | exact HG].
  - vm_compute in H. discriminate H.
Defined.







(** X8. Targets given as a single row are not refused: a (1 x k) array c is
    broadcast against the m target locations, and both [sinkhorn_mk] and
    [Dsinkhorn_reg] behave as on the (m x k) array whose m rows all equal
    that row, m the number of columns of K. *)
Theorem one_row_targets_are_broadcast
        {F : Type} {S : Scalar F} (log : F -> F)
        (r : list F) (c M K : matrix F) (l : F) (T : nat) :
  nrows c = 1 ->
  sinkhorn_mk r (Arr2 c) M K T
  = sinkhorn_mk r (Arr2 (repeat_rows (ncols K) c)) M K T
  /\ Dsinkhorn_reg log r (Arr2 c) M l K T
     = Dsinkhorn_reg log r (Arr2 (repeat_rows (ncols K) c)) M l K T.
Proof.
  intros Hc. unfold sinkhorn_mk, Dsinkhorn_reg.
  destruct (mask_rows (np_gt0 r) M) as [M'|]; [|split; reflexivity].
  destruct (mask_rows (np_gt0 r) K) as [K'|] eqn:HK'; [|split; reflexivity].
  apply ncols_mask_rows in HK'. cbn [bind reshape_c]. rewrite <- HK'.
  rewrite (uv_iteration_repeat_rows _ c M' K' T Hc).
  split; reflexivity.
Qed.

Lemma one_row_targets_are_broadcast_witness :
  nrows Sample2.c_row = 1
  /\ sinkhorn_mk Sample.r (Arr2 Sample2.c_row) Sample.M Sample.K 2
     = sinkhorn_mk Sample.r (Arr2 (Mat 2 2 [[0.5; 1]; [0.5; 1]]%float))
                   Sample.M Sample.K 2.
Proof.
  split; [reflexivity|].
  exact (proj1 (one_row_targets_are_broadcast
                  Sample.log_stand_in Sample.r Sample2.c_row Sample.M Sample.K
                  2%float 2 eq_refl)).
Defined.



(** X10. Where the divergence is returned, so is its gradient: on inputs
    for which [sinkhorn_mk] returns, [Dsinkhorn_reg] returns too, for every
    l.  (The gradient needs less: it never forms K * M.) *)
Theorem gradient_returns_where_divergence_does
        {F : Type} {S : Scalar F} (log : F -> F)
        (r : list F) (c : ndarray F) (M K : matrix F) (l : F) (T : nat)
        (d : list F) :
  sinkhorn_mk r c M K T = Some d ->
  exists G, Dsinkhorn_reg log r c M l K T = Some G.
Proof. apply Dsinkhorn_reg_returns_with_sinkhorn_mk. Qed.

Lemma gradient_returns_where_divergence_does_witness :
  exists d G,
    sinkhorn_mk Sample.r (Arr2 Sample2.c_row) Sample.M Sample.K 2 = Some d
    /\ Dsinkhorn_reg Sample.log_stand_in Sample.r (Arr2 Sample2.c_row) Sample.M
                     2%float Sample.K 2 = Some G.
Proof.
  destruct (sinkhorn_mk Sample.r (Arr2 Sample2.c_row) Sample.M Sample.K 2)
    as [d|] eqn:H.
  - destruct (gradient_returns_where_divergence_does
                Sample.log_stand_in _ _ _ _ 2%float _ _ H) as (G & HG).
    exists d, G. split; [reflexivity | exact HG].
  - vm_compute in H. discriminate H.
Defined.

(** X11. Whatever the references denote, valid or not, and whether the call
    returns or raises: each entry point leaves every cell of the store it
    was given as it was, adding cells only; and the array it returns lives
    in a cell it allocated itself, so it is none of the caller's arrays nor
    a view of one. *)
Theorem entry_points_only_allocate
        {F : Type} {S : Scalar F} (exp log : F -> F)
        (s : store) (r c M K : handle) (l : F) (T : nat) :
  frame s (fresh_for s) (sinkhorn_mk_st r c M K T)
  /\ frame s (fresh_for s) (sinkhorn_st exp r c M l T)
  /\ frame s (fresh_for s) (Dsinkhorn_reg_st log r c M l K T).
Proof.
  split; [|split].
  - apply frame_sinkhorn_mk_st.
  - apply frame_sinkhorn_st.
  - apply frame_Dsinkhorn_reg_st.
Qed.

(** ** Exactly when the entry points return *)

Section Returning.
Context {F : Type} {S : Scalar F}.




Lemma nrows_mask_rows (I : list bool) (A A' : matrix F) :
  length (rows A) = nrows A -> mask_rows I A = Some A' ->
  nrows A' = length (filter (fun b => b) I).
Proof.
  intros Hwf. unfold mask_rows.
  destruct (Nat.eqb_spec (length I) (nrows A)); [|discriminate].
  intros [= <-]. cbn [nrows]. apply length_compress_filter. congruence.
Qed.




End Returning.



(** X13. Every divergence that is returned has one value per target
    measure, the calls that broadcasting accepts included: k values for a
    2-D c with k columns, one for a flat c. *)
Theorem returned_divergence_has_length_k
        {F : Type} {S : Scalar F} (exp : F -> F)
        (r : list F) (c : ndarray F) (M K : matrix F) (l : F) (T : nat) :
  (forall d, sinkhorn_mk r c M K T = Some d -> length d = measures c)
  /\ (forall d, sinkhorn exp r c M l T = Some d -> length d = measures c).
Proof.
  split; intros d H.
  - now apply (sinkhorn_mk_length r c M K T).
  - now apply (sinkhorn_mk_length r c M (build_kernel exp l M) T).
Qed.

(** ** Inputs already filtered *)

Section Prefiltered.
Context {F : Type} {S : Scalar F}.

Lemma np_gt0_compress (r : list F) :
  np_gt0 (compress (np_gt0 r) r)
  = repeat true (length (compress (np_gt0 r) r)).
Proof.
  induction r as [|x r IH]; [reflexivity|]. cbn [np_gt0 map compress].
  destruct (flt fzero x) eqn:Hx; [|exact IH].
  cbn [map length repeat]. rewrite Hx. f_equal. exact IH.
Qed.

Lemma compress_all_true {A : Type} (l : list A) :
  compress (repeat true (length l)) l = l.
Proof. induction l as [|a l IH]; [reflexivity|]. simpl. now rewrite IH. Qed.

Lemma mask_rows_all_true (I : list bool) (A A' : matrix F) (n : nat) :
  length (rows A) = nrows A -> mask_rows I A = Some A' ->
  n = length (filter (fun b => b) I) ->
  mask_rows (repeat true n) A' = Some A'.
Proof.
  intros Hwf HA' Hn.
  pose proof (nrows_mask_rows I A A' Hwf HA') as Hrows.
  unfold mask_rows in *.
  destruct (length I =? nrows A); [|discriminate]. injection HA' as <-.
  cbn [nrows ncols rows] in *. rewrite repeat_length, Hn, <- Hrows, Nat.eqb_refl.
  now rewrite compress_all_true.
Qed.

(** The filter is idempotent: a caller that drops the weightless locations
    beforehand gets what the call on the full inputs gives. *)
Lemma sinkhorn_mk_prefiltered (r : list F) (c : ndarray F) (M K M' K' : matrix F)
      (T : nat) :
  length (rows M) = nrows M -> length (rows K) = nrows K ->
  mask_rows (np_gt0 r) M = Some M' -> mask_rows (np_gt0 r) K = Some K' ->
  sinkhorn_mk (compress (np_gt0 r) r) c M' K' T = sinkhorn_mk r c M K T.
Proof.
  intros HwM HwK HM' HK'. unfold sinkhorn_mk at 1.
  rewrite np_gt0_compress, compress_all_true.
  rewrite (mask_rows_all_true (np_gt0 r) M M' _ HwM HM')
    by apply length_compress_np_gt0.
  rewrite (mask_rows_all_true (np_gt0 r) K K' _ HwK HK')
    by apply length_compress_np_gt0.
  unfold sinkhorn_mk. now rewrite HM', HK'.
Qed.

End Prefiltered.

(** X14. The zero filter is idempotent: when r[I], M[I, :] and K[I, :] are
    the inputs restricted to the mask I = r > 0, [sinkhorn_mk] on these
    restricted inputs returns what it returns on r, M, K themselves. *)
Theorem prefiltering_changes_nothing
        {F : Type} {S : Scalar F}
        (r : list F) (c : ndarray F) (M K M' K' : matrix F) (T : nat) :
  length (rows M) = nrows M -> length (rows K) = nrows K ->
  mask_rows (np_gt0 r) M = Some M' -> mask_rows (np_gt0 r) K = Some K' ->
  sinkhorn_mk (compress (np_gt0 r) r) c M' K' T = sinkhorn_mk r c M K T.
Proof. apply sinkhorn_mk_prefiltered. Qed.

Lemma prefiltering_changes_nothing_witness :
  mask_rows (np_gt0 Sample.r) Sample.M = Some (Mat 2 2 [[0; 1]; [1; 0]]%float)
  /\ sinkhorn_mk [0.5; 0.5]%float (Arr2 Sample.c)
                 (Mat 2 2 [[0; 1]; [1; 0]]%float)
                 (Mat 2 2 [[1; 0.25]; [0.25; 1]]%float) 2
     = sinkhorn_mk Sample.r (Arr2 Sample.c) Sample.M Sample.K 2.
Proof.
  split; [reflexivity|].
  exact (prefiltering_changes_nothing
           Sample.r (Arr2 Sample.c) Sample.M Sample.K
           (Mat 2 2 [[0; 1]; [1; 0]]%float)
           (Mat 2 2 [[1; 0.25]; [0.25; 1]]%float) 2
           eq_refl eq_refl eq_refl eq_refl).
Defined.
